(** * cmd-nsmgr-proxy: bootstrap, address selection and listener supervision

    A shallow embedding of [main.go]: the configuration record, the
    representative-URL scan ([defaultURL]), the publishable-URL resolver
    ([getPublishableURL]), the start-up sequence of [main] and the
    listener supervision of [exitOnErr], followed by the properties the
    specification states about them.

    Conventions.
    - A Go call returning [(value, err)] is a sum [error + value]
      ([inl err] is the failing return).
    - A Go pointer [*url.URL] is a [URLPtr]: either the address of an
      element of the [ListenOn] slice or a URL allocated by a callee.
    - Everything the process does that can be seen from outside (log
      lines, calls to collaborators, cancellation) is an [Event]; a run
      produces the list of its events in the order they happen.
    - Packages that are imported by [main.go] but are not part of this
      repository (debug, envconfig, logrus, go-spiffe, grpcutils,
      listenonurl, net) appear only through their results, gathered in
      [World]. *)

From Stdlib Require Import ZArith Lia.
From stdpp Require Import base tactics option list strings.

(** ** Data *)

(** Go's [error] values, identified by their message ([err.Error()]). *)
Definition error : Type := string.

(** [url.URL], with the parts a listen specification is made of.  Only
    [Scheme] is read by this program. *)
Record URL : Type := {
  Scheme : string;
  Host : string;
  Path : string;
}.

(** [net.Addr] as returned by [net.InterfaceAddrs]. *)
Definition Addr : Type := string.

(** [Config] of main.go, lines 60-71. *)
Record Config : Type := {
  ListenOn : list URL;
  Name : string;
  MaxTokenLifetime : Z;            (* seconds *)
  RegistryServerPolicies : list string;
  RegistryClientPolicies : list string;
  MapIPFilePath : string;
  RegistryProxyURL : option URL;
  RegistryURL : option URL;
  LogLevel : string;
  OpenTelemetryEndpoint : string;
}.

(** The values of the [default:] tags of [Config]. *)
Definition defaultConfig : Config := {|
  ListenOn := [ {| Scheme := "unix"; Host := ""; Path := "/listen.on.socket" |} ];
  Name := "nsmgr-proxy";
  MaxTokenLifetime := 600;
  RegistryServerPolicies :=
    ["etc/nsm/opa/common/.*.rego"; "etc/nsm/opa/registry/.*.rego"; "etc/nsm/opa/server/.*.rego"];
  RegistryClientPolicies :=
    ["etc/nsm/opa/common/.*.rego"; "etc/nsm/opa/registry/.*.rego"; "etc/nsm/opa/client/.*.rego"];
  MapIPFilePath := "map-ip.yaml";
  RegistryProxyURL := None;
  RegistryURL := None;
  LogLevel := "INFO";
  OpenTelemetryEndpoint := "otel-collector.observability.svc.cluster.local:4317";
|}.

(** A [*url.URL]. *)
Inductive URLPtr : Type :=
| ElemOf (i : nat)      (* &listenOn[i] *)
| Alloc (u : URL).      (* a URL allocated by listenonurl.GetPublicURL *)

Definition deref (listenOn : list URL) (p : URLPtr) : option URL :=
  match p with
  | ElemOf i => listenOn !! i
  | Alloc u => Some u
  end.

(** How a process stops: [os.Exit code] or a run-time panic. *)
Inductive Halt : Type :=
| Exit (code : Z)
| Panic (msg : string).

(** ** Transport credentials (packages crypto/tls and go-spiffe tlsconfig)

    [main] only calls the constructors and sets [MinVersion]; what the
    resulting configuration means for a handshake is the contract of the
    two libraries, written out here so that the wiring can be read as a
    policy. *)

Record X509Source : Type := { authorities : list string }.
Record SVID : Type := { ID : string }.

Module tls.
Definition VersionTLS10 : Z := 0x0301.
Definition VersionTLS12 : Z := 0x0303.

Inductive ClientAuthType : Type :=
| NoClientCert
| RequestClientCert
| RequireAnyClientCert
| VerifyClientCertIfGiven
| RequireAndVerifyClientCert.
End tls.

Module tlsconfig.
Inductive Authorizer : Type :=
| AuthorizeAny
| AuthorizeID (id : string).


Inductive Side : Type := ClientSide | ServerSide.

(** The fields of [tls.Config] that the MTLS constructors fill in. *)
Record Config : Type := {
  side : Side;
  GetCertificate : option X509Source;          (* own X509-SVID presented to the peer *)
  ClientAuth : tls.ClientAuthType;
  InsecureSkipVerify : bool;
  VerifyPeerCertificate : option (X509Source * Authorizer);
  MinVersion : Z;
}.

(** Modelled from the spec: [tlsconfig.MTLSClientConfig(svid, bundle,
    authorizer)] of go-spiffe, whose code is not in this repository: a
    client-side configuration that presents the SVID of [svid] and
    "require[s] mutual authentication against the trust bundle" [bundle],
    admitting the peer identities [authorizer] accepts. *)
Definition MTLSClientConfig (svid bundle : X509Source) (a : Authorizer) : Config := {|
  side := ClientSide;
  GetCertificate := Some svid;
  ClientAuth := tls.NoClientCert;
  InsecureSkipVerify := true;
  VerifyPeerCertificate := Some (bundle, a);
  MinVersion := 0;
|}.

(** Modelled from the spec: [tlsconfig.MTLSServerConfig(svid, bundle,
    authorizer)] of go-spiffe, whose code is not in this repository: the
    server-side counterpart, which demands a client certificate. *)
Definition MTLSServerConfig (svid bundle : X509Source) (a : Authorizer) : Config := {|
  side := ServerSide;
  GetCertificate := Some svid;
  ClientAuth := tls.RequireAnyClientCert;
  InsecureSkipVerify := false;
  VerifyPeerCertificate := Some (bundle, a);
  MinVersion := 0;
|}.

(** [cfg.MinVersion = v] *)
Definition setMinVersion (v : Z) (c : Config) : Config := {|
  side := side c;
  GetCertificate := GetCertificate c;
  ClientAuth := ClientAuth c;
  InsecureSkipVerify := InsecureSkipVerify c;
  VerifyPeerCertificate := VerifyPeerCertificate c;
  MinVersion := v;
|}.



End tlsconfig.

(** ** Events and the start-up monad *)

Inductive Event : Type :=
| LogDebugSelf (err : error)     (* Infof("%s", err) for the error of debug.Self *)
| LogInfo (what : string)
| LogListeningURL (listenURL : URLPtr)
| LogWarn (err : error)
| LogError (err : error)
| LogFatal (err : error)
| NewGRPCServer (creds : tlsconfig.Config)
| NewProxyServer (listenOn : URLPtr) (dialCreds : tlsconfig.Config)
| ListenAndServeCall (i : nat) (address : URL)
| CancelCall (effective : bool)
| SignalReceived.

(** A sequential piece of the program: the events it emits and either
    the reason it stopped the process or its result. *)
Definition Run (A : Type) : Type := list Event * (Halt + A).

#[global] Instance Run_ret : MRet Run := λ A a, ([], inr a).
#[global] Instance Run_bind : MBind Run := λ A B k m,
  match m with
  | (tr, inl h) => (tr, inl h)
  | (tr, inr a) => let '(tr', r) := k a in (tr ++ tr', r)
  end.

Definition emit (e : Event) : Run unit := ([e], inr tt).

(** [logrus.Fatal] / [logrus.Fatalf] / [Logger.Fatal]: log, then
    [os.Exit(1)]. *)
Definition Fatal {A : Type} (err : error) : Run A := ([LogFatal err], inl (Exit 1)).

(** A run-time panic. *)
Definition panic {A : Type} (msg : string) : Run A := ([], inl (Panic msg)).

(** [if err != nil { Fatal(err) }] on a call that returns only an error. *)
Definition fatalIf (r : option error) : Run unit :=
  match r with
  | Some err => Fatal err
  | None => mret tt
  end.

(** [if err := debug.Self(); err != nil { Infof("%s", err) }]. *)
Definition noteIf (r : option error) : Run unit :=
  match r with
  | Some err => emit (LogDebugSelf err)
  | None => mret tt
  end.

(** [v, err := f(); if err != nil { Fatal(err) }]. *)
Definition orFatal {A : Type} (r : error + A) : Run A :=
  match r with
  | inl err => Fatal err
  | inr a => mret a
  end.

(** ** The address resolver (main.go, lines 211-228) *)

(** The loop of [defaultURL], entered at index [i] with [rest] the
    elements [listenOn[i:]]: the index at which it returns, if it does. *)
Fixpoint defaultURL_scan (rest : list URL) (i : nat) : option nat :=
  match rest with
  | [] => None
  | u :: rest' =>
      if String.eqb (Scheme u) "tcp" then Some i
      else defaultURL_scan rest' (S i)
  end.

(** [defaultURL]: the scan, then the unconditional [&listenOn[0]], which
    panics on an empty slice. *)
Definition defaultURL (listenOn : list URL) : Run URLPtr :=
  match defaultURL_scan listenOn 0 with
  | Some i => mret (ElemOf i)
  | None =>
      match listenOn !! 0 with
      | Some _ => mret (ElemOf 0)
      | None => panic "index out of range [0] with length 0"
      end
  end.

(** [getPublishableURL].  [interfaceAddrs] is the result of
    [net.InterfaceAddrs()]; [getPublicURL] is [listenonurl.GetPublicURL]
    applied to the URL [u] points to, returning [None] when it hands
    back the pointer it was given and [Some u'] when it allocates. *)
Definition getPublishableURL
    (interfaceAddrs : error + list Addr)
    (getPublicURL : list Addr → URL → option URL)
    (listenOn : list URL) : Run URLPtr :=
  u ← defaultURL listenOn;
  match interfaceAddrs with
  | inl err =>
      _ ← emit (LogWarn err);
      mret u
  | inr addrs =>
      match deref listenOn u with
      | Some target =>
          match getPublicURL addrs target with
          | Some u' => mret (Alloc u')
          | None => mret u
          end
      | None => panic "invalid memory address or nil pointer dereference"
      end
  end.

(** ** The process and its environment *)

(** What [exitOnErr] can find on the error channel returned by
    [grpcutils.ListenAndServe]. *)
Inductive ErrChan : Type :=
| Ready (err : error)   (* a value can be received when [exitOnErr] polls *)
| Later (err : error)   (* nothing at the poll; a value is received afterwards *)
| Quiet.                (* nothing is ever received *)

(** The results of the calls [main] makes outside this repository.
    [grpcutils_ListenAndServe w i u] is what the poll of [exitOnErr]
    finds, in the run described, on the channel returned for listener [i]
    (the call also receives the context and the shared server; each
    listener is started at most once in a run, so whatever those make of
    it in that run is an answer per listener). *)
Record World : Type := {
  debug_Self : option error;
  envconfig_Usage : option error;
  envconfig_Process : error + Config;
  logrus_ParseLevel : string → option error;
  workloadapi_NewX509Source : error + X509Source;
  GetX509SVID : X509Source → error + SVID;
  net_InterfaceAddrs : error + list Addr;
  listenonurl_GetPublicURL : list Addr → URL → option URL;
  grpcutils_ListenAndServe : nat → URL → ErrChan;
}.

(** What [main] holds when it reaches the listener loop. *)
Record Booted : Type := {
  config : Config;
  source : X509Source;
  tlsClientConfig : tlsconfig.Config;
  tlsServerConfig : tlsconfig.Config;
  listenURL : URLPtr;
}.

(** [main], lines 90-185: the debugger hook, configuration, identity,
    credentials, the publishable URL and the assembly of the server.
    (Logging set-up and OpenTelemetry neither stop the process nor touch
    what follows, and are left out.) *)
Definition boot (w : World) : Run Booted :=
  (* Debug self if necessary *)
  _ ← noteIf (debug_Self w);
  (* Get config from environment *)
  _ ← fatalIf (envconfig_Usage w);
  config ← orFatal (envconfig_Process w);
  _ ← fatalIf (logrus_ParseLevel w (LogLevel config));
  _ ← emit (LogInfo "Config");
  (* Get a X509Source *)
  source ← orFatal (workloadapi_NewX509Source w);
  svid ← orFatal (GetX509SVID w source);
  _ ← emit (LogInfo "SVID");
  let tlsClientConfig :=
    tlsconfig.setMinVersion tls.VersionTLS12
      (tlsconfig.MTLSClientConfig source source tlsconfig.AuthorizeAny) in
  let tlsServerConfig :=
    tlsconfig.setMinVersion tls.VersionTLS12
      (tlsconfig.MTLSServerConfig source source tlsconfig.AuthorizeAny) in
  (* Create GRPC Server and register services *)
  _ ← emit (NewGRPCServer tlsServerConfig);
  listenURL ← getPublishableURL (net_InterfaceAddrs w) (listenonurl_GetPublicURL w)
                (ListenOn config);
  _ ← emit (LogListeningURL listenURL);
  _ ← emit (NewProxyServer listenURL tlsClientConfig);
  mret {| config := config; source := source;
          tlsClientConfig := tlsClientConfig; tlsServerConfig := tlsServerConfig;
          listenURL := listenURL |}.

(** The process lifetime signal: the context returned by
    [signal.NotifyContext]. *)
Inductive Lifetime : Type :=
| Running
| ShuttingDown.

(** Modelled from the spec: the [cancel] function of the root context
    (Go's [context.CancelFunc]), whose body is not in this repository.
    "Cancellation is single-shot: a second trigger after ShuttingDown has
    no additional effect"; "once cancelled, stays cancelled".  The
    boolean tells whether the call changed the signal. *)
Definition cancel (s : Lifetime) : Lifetime * bool :=
  match s with
  | Running => (ShuttingDown, true)
  | ShuttingDown => (ShuttingDown, false)
  end.

(** Where the main goroutine stands. *)
Inductive MainPC : Type :=
| AtBoot                 (* stopped before the listener loop *)
| AtLoop (i : nat)       (* about to test [i < len(config.ListenOn)] *)
| AtDone                 (* blocked in [<-ctx.Done()] *)
| Returned.

(** A goroutine started by [exitOnErr]: blocked in [err := <-errCh]
    until it has fired (received and logged), then about to call
    [cancel()] until it has. *)
Record Watcher : Type := {
  errCh : ErrChan;
  fired : bool;
  cancelled : bool;
}.

Record Proc : Type := {
  pc : MainPC;
  goroutines : list Watcher;
  ctx : Lifetime;
  trace : list Event;
  halted : option Halt;
}.

(** [exitOnErr(ctx, cancel, errCh)], the part run by the caller: the
    non-blocking [select], then [go func ...]. *)
Definition exitOnErr (ch : ErrChan) (next : MainPC) (p : Proc) : Proc :=
  match ch with
  | Ready err =>
      (* If we already have an error, log it and exit *)
      {| pc := pc p; goroutines := goroutines p; ctx := ctx p;
         trace := trace p ++ [LogFatal err]; halted := Some (Exit 1) |}
  | _ =>
      (* Otherwise wait for an error in the background to log and cancel *)
      {| pc := next;
         goroutines := goroutines p ++ [{| errCh := ch; fired := false; cancelled := false |}];
         ctx := ctx p; trace := trace p; halted := halted p |}
  end.

(** The goroutine of [exitOnErr] number [k] makes its next step: it
    receives from its channel and logs, [err := <-errCh; log.Error(err)],
    or, having done that, calls [cancel()] and ends.  Other goroutines
    may run between the two. *)
Definition watcherStep (k : nat) (p : Proc) : Proc :=
  match goroutines p !! k with
  | Some g =>
      match fired g, cancelled g, errCh g with
      | false, _, Later err =>
          {| pc := pc p;
             goroutines :=
               <[k := {| errCh := errCh g; fired := true; cancelled := false |}]>
                 (goroutines p);
             ctx := ctx p;
             trace := trace p ++ [LogError err];
             halted := halted p |}
      | true, false, _ =>
          let c := cancel (ctx p) in
          {| pc := pc p;
             goroutines :=
               <[k := {| errCh := errCh g; fired := true; cancelled := true |}]>
                 (goroutines p);
             ctx := c.1;
             trace := trace p ++ [CancelCall c.2];
             halted := halted p |}
      | _, _, _ => p
      end
  | None => p
  end.

(** One of SIGINT, SIGHUP, SIGTERM, SIGQUIT arrives: the context of
    [signal.NotifyContext] is cancelled.  (The schedule may deliver more
    signals than the one the context reacts to; the extra calls of
    [cancel] are as harmless as any other repeated call.) *)
Definition signalStep (p : Proc) : Proc :=
  let c := cancel (ctx p) in
  {| pc := pc p; goroutines := goroutines p; ctx := c.1;
     trace := trace p ++ [SignalReceived; CancelCall c.2]; halted := halted p |}.

(** One step of the main goroutine from the listener loop on
    (lines 187-194). *)
Definition mainStep (w : World) (listenOn : list URL) (p : Proc) : Proc :=
  match pc p with
  | AtBoot => p
  | AtLoop i =>
      match listenOn !! i with
      | Some u =>
          let srvErrCh := grpcutils_ListenAndServe w i u in
          exitOnErr srvErrCh (AtLoop (S i))
            {| pc := pc p; goroutines := goroutines p; ctx := ctx p;
               trace := trace p ++ [ListenAndServeCall i u]; halted := halted p |}
      | None =>
          {| pc := AtDone; goroutines := goroutines p; ctx := ctx p;
             trace := trace p ++ [LogInfo "Startup completed"]; halted := halted p |}
      end
  | AtDone =>
      match ctx p with
      | Running => p                      (* still blocked *)
      | ShuttingDown =>
          (* main returns: the deferred [cancel()] runs, the process ends *)
          let c := cancel (ctx p) in
          {| pc := Returned; goroutines := goroutines p; ctx := c.1;
             trace := trace p ++ [CancelCall c.2]; halted := Some (Exit 0) |}
      end
  | Returned => p
  end.

(** The scheduler's choices. *)
Inductive Choice : Type :=
| RunMain
| RunWatcher (k : nat)
| DeliverSignal.

(** A process that has exited does nothing more. *)
Definition step (w : World) (listenOn : list URL) (p : Proc) (c : Choice) : Proc :=
  match halted p with
  | Some _ => p
  | None =>
      match c with
      | RunMain => mainStep w listenOn p
      | RunWatcher k => watcherStep k p
      | DeliverSignal => signalStep p
      end
  end.

Definition run (w : World) (listenOn : list URL) (sched : list Choice) (p : Proc) : Proc :=
  foldl (step w listenOn) p sched.

(** The process at the top of the listener loop. *)
Definition atLoopStart (tr : list Event) : Proc :=
  {| pc := AtLoop 0; goroutines := []; ctx := Running; trace := tr; halted := None |}.

(** The whole program under the schedule [sched].  [os.Exit] (behind
    the fatal log calls) ends the process without running deferred
    calls; a panic unwinds [main], so the [defer cancel()] of line 83
    runs before the process dies. *)
Definition main (w : World) (sched : list Choice) : Proc :=
  match boot w with
  | (tr, inl (Exit code)) =>
      {| pc := AtBoot; goroutines := []; ctx := Running; trace := tr;
         halted := Some (Exit code) |}
  | (tr, inl (Panic msg)) =>
      let c := cancel Running in
      {| pc := AtBoot; goroutines := []; ctx := c.1; trace := tr ++ [CancelCall c.2];
         halted := Some (Panic msg) |}
  | (tr, inr b) =>
      run w (ListenOn (config b)) sched (atLoopStart tr)
  end.

(** ** Observations on a trace *)

(** The listener-start attempts, in order. *)
Definition attempts (tr : list Event) : list (nat * URL) :=
  omap (λ e, match e with ListenAndServeCall i u => Some (i, u) | _ => None end) tr.

(** The bind requests the configuration asks for: [&config.ListenOn[i]]
    for each [i]. *)
Definition requested (listenOn : list URL) : list (nat * URL) :=
  imap (λ i u, (i, u)) listenOn.

(** The number of cancellations that changed the signal. *)
Definition isEffectiveCancel (e : Event) : bool :=
  match e with CancelCall true => true | _ => false end.

Definition effectiveCancels (tr : list Event) : nat :=
  length (List.filter isEffectiveCancel tr).

(** The number of calls of [cancel], effective or not. *)
Definition isCancel (e : Event) : bool :=
  match e with CancelCall _ => true | _ => false end.

Definition cancelCalls (tr : list Event) : nat :=
  length (List.filter isCancel tr).

(** The number of steps the schedule gives to the main goroutine. *)
Definition isRunMain (c : Choice) : bool :=
  match c with RunMain => true | _ => false end.

Definition mainSteps (sched : list Choice) : nat :=
  length (List.filter isRunMain sched).

Definition isReady (ch : ErrChan) : bool :=
  match ch with Ready _ => true | _ => false end.

(** Whether [main] gets as far as line 164, and with which configuration
    and identity source: every fallible call before the address
    resolver has succeeded. *)
Definition preResolution (w : World) : option (Config * X509Source) :=
  match envconfig_Usage w with
  | Some _ => None
  | None =>
      match envconfig_Process w with
      | inl _ => None
      | inr cfg =>
          match logrus_ParseLevel w (LogLevel cfg) with
          | Some _ => None
          | None =>
              match workloadapi_NewX509Source w with
              | inl _ => None
              | inr src =>
                  match GetX509SVID w src with
                  | inl _ => None
                  | inr _ => Some (cfg, src)
                  end
              end
          end
      end
  end.

(** What [main] logs about [debug.Self] (lines 91-93). *)
Definition debugLog (w : World) : list Event :=
  match debug_Self w with
  | Some err => [LogDebugSelf err]
  | None => []
  end.

(** Identity acquisition is reached and fails with [err]: either
    [workloadapi.NewX509Source] or [source.GetX509SVID] returns it. *)
Definition identityFails (w : World) (err : error) : Prop :=
  workloadapi_NewX509Source w = inl err ∨
  ∃ src, workloadapi_NewX509Source w = inr src ∧ GetX509SVID w src = inl err.

(** The same world with other answers given to the address resolver. *)
Definition withResolver (ifaces : error + list Addr)
    (gpu : list Addr → URL → option URL) (w : World) : World := {|
  debug_Self := debug_Self w;
  envconfig_Usage := envconfig_Usage w;
  envconfig_Process := envconfig_Process w;
  logrus_ParseLevel := logrus_ParseLevel w;
  workloadapi_NewX509Source := workloadapi_NewX509Source w;
  GetX509SVID := GetX509SVID w;
  net_InterfaceAddrs := ifaces;
  listenonurl_GetPublicURL := gpu;
  grpcutils_ListenAndServe := grpcutils_ListenAndServe w;
|}.

(** The two transport configurations [main] derives from the identity
    source (lines 139-142). *)
Definition clientCreds (src : X509Source) : tlsconfig.Config :=
  tlsconfig.setMinVersion tls.VersionTLS12
    (tlsconfig.MTLSClientConfig src src tlsconfig.AuthorizeAny).

Definition serverCreds (src : X509Source) : tlsconfig.Config :=
  tlsconfig.setMinVersion tls.VersionTLS12
    (tlsconfig.MTLSServerConfig src src tlsconfig.AuthorizeAny).

(** ** Sample inputs *)

Definition tcpURL : URL := {| Scheme := "tcp"; Host := "0.0.0.0:5006"; Path := "" |}.
Definition unixURL : URL := {| Scheme := "unix"; Host := ""; Path := "/listen.on.socket" |}.
Definition schemeOnly (s : string) : URL := {| Scheme := s; Host := ":5006"; Path := "" |}.

Definition configListening (l : list URL) : Config := {|
  ListenOn := l;
  Name := Name defaultConfig;
  MaxTokenLifetime := MaxTokenLifetime defaultConfig;
  RegistryServerPolicies := RegistryServerPolicies defaultConfig;
  RegistryClientPolicies := RegistryClientPolicies defaultConfig;
  MapIPFilePath := MapIPFilePath defaultConfig;
  RegistryProxyURL := None;
  RegistryURL := None;
  LogLevel := LogLevel defaultConfig;
  OpenTelemetryEndpoint := OpenTelemetryEndpoint defaultConfig;
|}.

Definition sampleSource : X509Source := {| authorities := ["example.org"] |}.

(** A world in which configuration and identity succeed, interface
    enumeration returns a loopback and a routable address, and
    [GetPublicURL] hands back its argument. *)
Definition sampleWorld (l : list URL) (chans : nat → ErrChan) : World := {|
  debug_Self := None;
  envconfig_Usage := None;
  envconfig_Process := inr (configListening l);
  logrus_ParseLevel := λ _, None;
  workloadapi_NewX509Source := inr sampleSource;
  GetX509SVID := λ _, inr {| ID := "spiffe://example.org/nsmgr-proxy" |};
  net_InterfaceAddrs := inr ["127.0.0.1"; "10.0.0.5"];
  listenonurl_GetPublicURL := λ _ _, None;
  grpcutils_ListenAndServe := λ i _, chans i;
|}.

(** Only the first listener's channel ever yields. *)
Definition onlyFirst (ch : ErrChan) (i : nat) : ErrChan :=
  match i with
  | 0 => ch
  | S _ => Quiet
  end.

(** Three listeners; the first cannot bind, so its error is on the
    channel when [ListenAndServe] returns. *)
Definition bindFailsWorld : World :=
  sampleWorld [tcpURL; unixURL; unixURL]
    (onlyFirst (Ready "listen tcp 0.0.0.0:5006: bind: address already in use")).

(** Two listeners; the first one's serve loop fails after it was
    started. *)
Definition serveFailsWorld : World :=
  sampleWorld [unixURL; tcpURL] (onlyFirst (Later "grpc: the server has been stopped")).

(** Two listeners whose serve loops both fail. *)
Definition bothFailWorld : World :=
  sampleWorld [tcpURL; unixURL] (λ _, Later "grpc: the server has been stopped").

(** NSM_LISTEN_ON set to the empty string: an empty [ListenOn]. *)
Definition noListenersWorld : World := sampleWorld [] (λ _, Quiet).

(** [net.InterfaceAddrs] fails. *)
Definition noInterfacesWorld : World :=
  withResolver (inl "route ip+net: no such network interface") (λ _ _, None)
    (sampleWorld [unixURL; tcpURL] (λ _, Quiet)).

(** The workload API is unreachable. *)
Definition noIdentityWorld : World := {|
  debug_Self := None;
  envconfig_Usage := None;
  envconfig_Process := inr (configListening [tcpURL; unixURL]);
  logrus_ParseLevel := λ _, None;
  workloadapi_NewX509Source := inl "x509source: context deadline exceeded";
  GetX509SVID := λ _, inr {| ID := "" |};
  net_InterfaceAddrs := inr [];
  listenonurl_GetPublicURL := λ _ _, None;
  grpcutils_ListenAndServe := λ _ _, Quiet;
|}.

(** The trace of a successful start-up of [sampleWorld l _] whose
    representative is [rep]. *)
Definition sampleBootTrace (rep : nat) : list Event :=
  [ LogInfo "Config"; LogInfo "SVID";
    NewGRPCServer (tlsconfig.setMinVersion tls.VersionTLS12
      (tlsconfig.MTLSServerConfig sampleSource sampleSource tlsconfig.AuthorizeAny));
    LogListeningURL (ElemOf rep);
    NewProxyServer (ElemOf rep) (tlsconfig.setMinVersion tls.VersionTLS12
      (tlsconfig.MTLSClientConfig sampleSource sampleSource tlsconfig.AuthorizeAny)) ].

(** ** Invariants of a run *)

(** None of the first [n] listeners has its error ready at the poll. *)
Definition noReadyBelow (w : World) (listenOn : list URL) (n : nat) : Prop :=
  ∀ j u, j < n → listenOn !! j = Some u →
         isReady (grpcutils_ListenAndServe w j u) = false.

(** What holds of the process after the main goroutine was given [m]
    steps of the listener loop. *)
Definition Inv (w : World) (listenOn : list URL) (m : nat) (p : Proc) : Prop :=
  match halted p with
  | None =>
      match pc p with
      | AtLoop i =>
          i = m ∧ i ≤ length listenOn ∧
          attempts (trace p) = take i (requested listenOn) ∧ noReadyBelow w listenOn i
      | AtDone =>
          length listenOn < m ∧
          attempts (trace p) = requested listenOn ∧
          noReadyBelow w listenOn (length listenOn)
      | _ => False
      end
  | Some (Exit code) =>
      match pc p with
      | AtLoop i =>
          code = 1%Z ∧ i < m ∧ noReadyBelow w listenOn i ∧
          attempts (trace p) = take (S i) (requested listenOn) ∧
          ∃ u err pre, listenOn !! i = Some u ∧
                       grpcutils_ListenAndServe w i u = Ready err ∧
                       trace p = pre ++ [ListenAndServeCall i u; LogFatal err]
      | Returned =>
          code = 0%Z ∧ length listenOn < m ∧
          attempts (trace p) = requested listenOn ∧
          noReadyBelow w listenOn (length listenOn) ∧
          ctx p = ShuttingDown
      | _ => False
      end
  | Some (Panic _) => False
  end.

(** The signal is cancelled exactly when [cancel] has been called, and
    then exactly one call was effective. *)
Definition CInv (p : Proc) : Prop :=
  match ctx p with
  | Running => cancelCalls (trace p) = 0 ∧ effectiveCancels (trace p) = 0
  | ShuttingDown => 0 < cancelCalls (trace p) ∧ effectiveCancels (trace p) = 1
  end.

(** ** Further observations *)


(** The errors logged by the goroutines of [exitOnErr]. *)
Definition isLogError (e : Event) : bool :=
  match e with LogError _ => true | _ => false end.

Definition errorLogs (tr : list Event) : nat :=
  length (List.filter isLogError tr).

(** The goroutines of [exitOnErr] that have received from their channel. *)
Definition firedCount (gs : list Watcher) : nat :=
  length (List.filter fired gs).

(** The line logged at main.go:192. *)
Definition isStartupCompleted (e : Event) : bool :=
  match e with
  | LogInfo what => String.eqb what "Startup completed"
  | _ => false
  end.

Definition completedLogs (tr : list Event) : nat :=
  length (List.filter isStartupCompleted tr).

(** The number of listeners the main goroutine has gone past. *)
Definition pcIndex (listenOn : list URL) (c : MainPC) : nat :=
  match c with
  | AtBoot => 0
  | AtLoop i => i
  | AtDone | Returned => length listenOn
  end.


(** Nobody fails and nobody cancels: the process is up, its context
    live, and all goroutines wait on channels that never yield. *)
Definition QInv (p : Proc) : Prop :=
  halted p = None ∧ ctx p = Running ∧
  ∀ k g, goroutines p !! k = Some g → errCh g = Quiet ∧ fired g = false.


(** Two listeners that serve for ever. *)
Definition servingWorld : World := sampleWorld [tcpURL; unixURL] (λ _, Quiet).

(** One goroutine per listener polled without error, each on the channel
    of its own listener, and fired only by a value received later. *)
Definition GInv (w : World) (listenOn : list URL) (p : Proc) : Prop :=
  pc p ≠ AtBoot
  ∧ pcIndex listenOn (pc p) ≤ length listenOn
  ∧ length (goroutines p) = pcIndex listenOn (pc p)
  ∧ ∀ k g, goroutines p !! k = Some g →
           ∃ u, listenOn !! k = Some u ∧
                errCh g = grpcutils_ListenAndServe w k u ∧
                isReady (errCh g) = false ∧
                (fired g = true → ∃ err, errCh g = Later err).

(** The goroutines of [exitOnErr] that have called [cancel]. *)
Definition cancelledCount (gs : list Watcher) : nat :=
  length (List.filter cancelled gs).

(** There are as many error lines as goroutines that fired; a goroutine
    calls [cancel] only after it has fired, each of these calls is in the
    trace, and once one is made the context is cancelled. *)
Definition EInv (p : Proc) : Prop :=
  errorLogs (trace p) = firedCount (goroutines p)
  ∧ cancelledCount (goroutines p) ≤ cancelCalls (trace p)
  ∧ ∀ k g, goroutines p !! k = Some g → cancelled g = true →
           fired g = true ∧ ctx p = ShuttingDown.





(** "Startup completed" is logged exactly when the loop is over. *)
Definition SInv (p : Proc) : Prop :=
  completedLogs (trace p) =
    match pc p with
    | AtDone | Returned => 1
    | _ => 0
    end.

(** * Properties *)

(** ** The representative scan *)

Section Scan.
Implicit Types (rest listenOn : list URL) (u : URL).

Lemma defaultURL_scan_Some rest i j :
  defaultURL_scan rest i = Some j →
  ∃ k u, j = i + k ∧ rest !! k = Some u ∧ Scheme u = "tcp" ∧
         ∀ k' u', k' < k → rest !! k' = Some u' → Scheme u' ≠ "tcp".
Proof.
  revert i. induction rest as [|v rest IH]; intros i; simpl; [done|].
  destruct (String.eqb (Scheme v) "tcp") eqn:E.
  - intros [= <-]. apply String.eqb_eq in E.
    exists 0, v. split_and!; [lia | done | done | intros; lia].
  - intros H. apply String.eqb_neq in E.
    destruct (IH _ H) as (k & u & -> & Hk & Hu & Hbefore).
    exists (S k), u. split_and!; [lia | done | done |].
    intros [|k'] u'; simpl; [by intros _ [= <-] | intros ? ?; apply (Hbefore k'); [lia | done]].
Qed.

Lemma defaultURL_scan_None rest i :
  defaultURL_scan rest i = None ↔ ∀ u, u ∈ rest → Scheme u ≠ "tcp".
Proof.
  revert i. induction rest as [|v rest IH]; intros i; simpl.
  - split; [intros _ u Hu; by apply elem_of_nil in Hu | done].
  - destruct (String.eqb (Scheme v) "tcp") eqn:E.
    + apply String.eqb_eq in E. split; [done|].
      intros H. exfalso. apply (H v); [left | done].
    + apply String.eqb_neq in E. rewrite IH. split.
      * intros H u [->|Hu]%elem_of_cons; [done | by apply H].
      * intros H u Hu. apply H. by right.
Qed.

Lemma defaultURL_scan_first rest i k u :
  rest !! k = Some u → Scheme u = "tcp" →
  (∀ k' u', k' < k → rest !! k' = Some u' → Scheme u' ≠ "tcp") →
  defaultURL_scan rest i = Some (i + k).
Proof.
  revert i k. induction rest as [|v rest IH]; intros i k; [done|].
  destruct k as [|k]; simpl.
  - intros [= ->] Hu _. apply String.eqb_eq in Hu. rewrite Hu. f_equal. lia.
  - intros Hk Hu Hbefore.
    assert (Scheme v ≠ "tcp") as Hv by (apply (Hbefore 0); [lia | done]).
    apply String.eqb_neq in Hv. rewrite Hv.
    rewrite (IH (S i) k); [f_equal; lia | done | done |].
    intros k' u' ? ?. apply (Hbefore (S k')); [lia | done].
Qed.

Lemma defaultURL_nonempty listenOn :
  listenOn ≠ [] →
  ∃ rep u, defaultURL listenOn = mret (ElemOf rep) ∧ listenOn !! rep = Some u.
Proof.
  intros Hne. unfold defaultURL.
  destruct (defaultURL_scan listenOn 0) as [j|] eqn:E.
  - destruct (defaultURL_scan_Some _ _ _ E) as (k & u & -> & Hk & _).
    by exists (0 + k), u.
  - destruct listenOn as [|v rest]; [done|]. by exists 0, v.
Qed.

Lemma defaultURL_empty :
  defaultURL [] = panic "index out of range [0] with length 0".
Proof. reflexivity. Qed.
End Scan.

(** ** The resolver and the start-up sequence *)

Section Boot.
Implicit Types (w : World) (listenOn : list URL).

Lemma getPublishableURL_empty ifaces gpu :
  getPublishableURL ifaces gpu [] =
    ([], inl (Panic "index out of range [0] with length 0")).
Proof. reflexivity. Qed.

Lemma getPublishableURL_warns err gpu listenOn rep :
  defaultURL listenOn = mret rep →
  getPublishableURL (inl err) gpu listenOn = ([LogWarn err], inr rep).
Proof. intros H. unfold getPublishableURL. by rewrite H. Qed.

(** On a non-empty list the resolver returns, having logged at most
    the enumeration warning. *)
Lemma getPublishableURL_nonempty ifaces gpu listenOn :
  listenOn ≠ [] →
  ∃ p, getPublishableURL ifaces gpu listenOn =
         (match ifaces with inl err => [LogWarn err] | inr _ => [] end, inr p).
Proof.
  intros Hne. destruct (defaultURL_nonempty _ Hne) as (rep & u & Hrep & Hu).
  unfold getPublishableURL. rewrite Hrep.
  destruct ifaces as [err|addrs]; [by eexists|].
  simpl. rewrite Hu. destruct (gpu addrs u); by eexists.
Qed.

(** The start-up sequence once configuration and identity are there. *)
Lemma boot_resolves w cfg src :
  preResolution w = Some (cfg, src) →
  boot w =
    let r := getPublishableURL (net_InterfaceAddrs w) (listenonurl_GetPublicURL w)
               (ListenOn cfg) in
    match r.2 with
    | inl h =>
        (debugLog w ++
         [LogInfo "Config"; LogInfo "SVID"; NewGRPCServer (serverCreds src)] ++ r.1, inl h)
    | inr p =>
        (debugLog w ++
         [LogInfo "Config"; LogInfo "SVID"; NewGRPCServer (serverCreds src)] ++ r.1 ++
         [LogListeningURL p; NewProxyServer p (clientCreds src)],
         inr {| config := cfg; source := src;
                tlsClientConfig := clientCreds src; tlsServerConfig := serverCreds src;
                listenURL := p |})
    end.
Proof.
  unfold preResolution. intros H.
  destruct (envconfig_Usage w) eqn:E1; [done|].
  destruct (envconfig_Process w) as [|cfg'] eqn:E2; [done|].
  destruct (logrus_ParseLevel w (LogLevel cfg')) eqn:E3; [done|].
  destruct (workloadapi_NewX509Source w) as [|src'] eqn:E4; [done|].
  destruct (GetX509SVID w src') eqn:E5; [done|].
  injection H as -> ->.
  unfold boot, debugLog.
  destruct (debug_Self w) as [note|]; rewrite E1, E2; cbn; rewrite E3, E4; cbn; rewrite E5; cbn;
    destruct (getPublishableURL _ _ _) as [tr [h|p]]; reflexivity.
Qed.

(** A failure before the resolver is fatal: one [LogFatal], exit
    status 1, and nothing but log lines before it. *)
Lemma boot_fatal w :
  preResolution w = None →
  ∃ err, boot w = (debugLog w ++ [LogFatal err], inl (Exit 1)) ∨
         boot w = (debugLog w ++ [LogInfo "Config"; LogFatal err], inl (Exit 1)).
Proof.
  unfold preResolution, boot, debugLog. intros H.
  destruct (debug_Self w) as [note|]; cbn;
    (destruct (envconfig_Usage w) as [e|]; [by exists e; left|]);
    (destruct (envconfig_Process w) as [e|cfg']; [by exists e; left|]); cbn;
    (destruct (logrus_ParseLevel w (LogLevel cfg')) as [e|]; [by exists e; left|]);
    (destruct (workloadapi_NewX509Source w) as [e|src']; [by exists e; right|]); cbn;
    (destruct (GetX509SVID w src') as [e|]; [by exists e; right | done]).
Qed.
End Boot.

(** ** Counting on traces *)

Lemma attempts_app tr1 tr2 : attempts (tr1 ++ tr2) = attempts tr1 ++ attempts tr2.
Proof. apply omap_app. Qed.

Lemma attempts_nil_lookup tr k i u :
  attempts tr = [] → tr !! k ≠ Some (ListenAndServeCall i u).
Proof.
  revert k. induction tr as [|e tr IH]; intros k; [done|].
  unfold attempts in *. simpl.
  destruct k as [|k]; simpl.
  - by intros H [= ->].
  - intros H. apply IH. by destruct e.
Qed.

Lemma effectiveCancels_app tr1 tr2 :
  effectiveCancels (tr1 ++ tr2) = effectiveCancels tr1 + effectiveCancels tr2.
Proof. unfold effectiveCancels. by rewrite List.filter_app, length_app. Qed.

Lemma cancelCalls_app tr1 tr2 :
  cancelCalls (tr1 ++ tr2) = cancelCalls tr1 + cancelCalls tr2.
Proof. unfold cancelCalls. by rewrite List.filter_app, length_app. Qed.

Lemma mainSteps_app s1 s2 : mainSteps (s1 ++ s2) = mainSteps s1 + mainSteps s2.
Proof. unfold mainSteps. by rewrite List.filter_app, length_app. Qed.

Lemma requested_lookup (listenOn : list URL) i :
  requested listenOn !! i = (λ u, (i, u)) <$> listenOn !! i.
Proof. unfold requested. by rewrite list_lookup_imap. Qed.

Lemma requested_length (listenOn : list URL) : length (requested listenOn) = length listenOn.
Proof. unfold requested. by rewrite length_imap. Qed.

(** ** The listener loop under an arbitrary schedule *)

(** Opens a goal about [watcherStep k p] into one goal per state the
    goroutine can be in. *)
Ltac watcher_cases p k :=
  unfold watcherStep;
  let Hg := fresh "Hg" in
  destruct (goroutines p !! k) as [[[?err|?err|] [] []]|] eqn:Hg;
  simpl.

Section Supervisor.
Variable w : World.
Variable listenOn : list URL.

Lemma noReadyBelow_S i u :
  noReadyBelow w listenOn i → listenOn !! i = Some u →
  isReady (grpcutils_ListenAndServe w i u) = false → noReadyBelow w listenOn (S i).
Proof.
  intros Hi Hu Hr j v Hj Hv. destruct (decide (j = i)) as [->|].
  - by simplify_eq.
  - apply Hi; [lia | done].
Qed.

Lemma Inv_mono m m' p : Inv w listenOn m p → halted p ≠ None → m ≤ m' → Inv w listenOn m' p.
Proof.
  unfold Inv. destruct (halted p) as [[code|]|]; [|done..].
  destruct (pc p); try done; intros; intuition lia.
Qed.

Lemma mainStep_Inv m p : Inv w listenOn m p → halted p = None → Inv w listenOn (S m) (mainStep w listenOn p).
Proof.
  intros H Hh. unfold Inv in H. rewrite Hh in H. unfold mainStep.
  destruct (pc p) as [|i| |] eqn:Hpc; try done.
  - destruct H as (<- & Hle & Hatt & Hno).
    destruct (listenOn !! i) as [u|] eqn:Hu.
    + assert (take (S i) (requested listenOn) =
              take i (requested listenOn) ++ [(i, u)]) as Htake.
      { apply take_S_r. by rewrite requested_lookup, Hu. }
      apply lookup_lt_Some in Hu as Hlt.
      destruct (grpcutils_ListenAndServe w i u) as [err|err|] eqn:Hch;
        unfold Inv; simpl; rewrite ?Hh, ?Hpc.
      * split_and!; try done; try lia.
        -- rewrite !attempts_app, Hatt, Htake. simpl. by rewrite app_nil_r.
        -- exists u, err, (trace p). by rewrite <- app_assoc.
      * split_and!; [done | lia | by rewrite attempts_app, Hatt, Htake |].
        eapply noReadyBelow_S; [done.. | by rewrite Hch].
      * split_and!; [done | lia | by rewrite attempts_app, Hatt, Htake |].
        eapply noReadyBelow_S; [done.. | by rewrite Hch].
    + apply lookup_ge_None in Hu. assert (i = length listenOn) as -> by lia.
      unfold Inv; simpl. rewrite Hh. split_and!; [lia | | done].
      rewrite attempts_app, Hatt. simpl. rewrite app_nil_r.
      apply take_ge. by rewrite requested_length.
  - destruct H as (Hlt & Hatt & Hno).
    destruct (ctx p) eqn:Hc; unfold Inv; simpl.
    + rewrite Hh, Hpc. split_and!; [lia | done..].
    + split_and!; [done | lia | | done..].
      rewrite attempts_app, Hatt. simpl. by rewrite app_nil_r.
Qed.

Lemma watcherStep_Inv m k p : Inv w listenOn m p → halted p = None → Inv w listenOn m (watcherStep k p).
Proof.
  intros H Hh. watcher_cases p k; try done;
    unfold Inv in *; simpl; rewrite Hh in *;
    destruct (pc p); try done; rewrite attempts_app; simpl; by rewrite app_nil_r.
Qed.

Lemma signalStep_Inv m p : Inv w listenOn m p → halted p = None → Inv w listenOn m (signalStep p).
Proof.
  unfold signalStep. intros H Hh.
  unfold Inv in *; simpl. rewrite Hh in *.
  destruct (pc p); try done; rewrite attempts_app; simpl; by rewrite app_nil_r.
Qed.

Lemma step_Inv m p c :
  Inv w listenOn m p → Inv w listenOn (if isRunMain c then S m else m) (step w listenOn p c).
Proof.
  intros H. unfold step. destruct (halted p) eqn:Hh.
  - eapply Inv_mono; [done | by rewrite Hh |]. destruct c; simpl; lia.
  - destruct c; simpl.
    + by apply mainStep_Inv.
    + by apply watcherStep_Inv.
    + by apply signalStep_Inv.
Qed.

Lemma run_Inv sched m p :
  Inv w listenOn m p → Inv w listenOn (m + mainSteps sched) (run w listenOn sched p).
Proof.
  revert m p. induction sched as [|c sched IH]; intros m p H.
  - simpl. by replace (m + mainSteps []) with m by (unfold mainSteps; simpl; lia).
  - simpl. apply (step_Inv _ _ c), IH in H.
    replace (m + mainSteps (c :: sched))
      with ((if isRunMain c then S m else m) + mainSteps sched); [done|].
    unfold mainSteps. simpl. destruct (isRunMain c); simpl; lia.
Qed.

Lemma atLoopStart_Inv tr : attempts tr = [] → Inv w listenOn 0 (atLoopStart tr).
Proof.
  intros H. unfold Inv; simpl. split_and!; [done | lia | by rewrite take_0 | ].
  intros j u ?. lia.
Qed.
End Supervisor.

(** ** The cancellation signal along a run *)

(** Closes a goal [CInv-before → CInv-after] once the step has been
    unfolded: the events added by the step are counted. *)
Ltac count_cancels :=
  simpl; rewrite ?cancelCalls_app, ?effectiveCancels_app;
  destruct (ctx _); simpl; unfold cancelCalls, effectiveCancels; simpl;
  intros [??]; split; lia.

Section Cancellation.
Variable w : World.
Variable listenOn : list URL.

Lemma step_CInv p c : CInv p → CInv (step w listenOn p c).
Proof.
  unfold step. destruct (halted p); [done|].
  destruct c as [|k|]; unfold CInv.
  - unfold mainStep. destruct (pc p); [done| |  |done].
    + destruct (listenOn !! i) as [u|]; simpl.
      * destruct (grpcutils_ListenAndServe w i u); count_cancels.
      * count_cancels.
    + destruct (ctx p) eqn:E; simpl; [by rewrite E|]. count_cancels.
  - watcher_cases p k; try done; count_cancels.
  - unfold signalStep. count_cancels.
Qed.

Lemma run_CInv sched p : CInv p → CInv (run w listenOn sched p).
Proof.
  revert p. induction sched as [|c sched IH]; intros p H; [done|].
  simpl. by apply IH, step_CInv.
Qed.




End Cancellation.

(** ** The whole program *)

Section Main.
Implicit Types (w : World) (sched : list Choice).

(** The three ways the start-up sequence can end. *)
Lemma boot_cases w :
  (preResolution w = None ∧
   ∃ err, boot w = (debugLog w ++ [LogFatal err], inl (Exit 1)) ∨
          boot w = (debugLog w ++ [LogInfo "Config"; LogFatal err], inl (Exit 1)))
  ∨ (∃ cfg src, preResolution w = Some (cfg, src) ∧ ListenOn cfg = [] ∧
       boot w = (debugLog w ++
                 [LogInfo "Config"; LogInfo "SVID"; NewGRPCServer (serverCreds src)],
                 inl (Panic "index out of range [0] with length 0")))
  ∨ (∃ cfg src p, preResolution w = Some (cfg, src) ∧ ListenOn cfg ≠ [] ∧
       boot w =
         (debugLog w ++
          [LogInfo "Config"; LogInfo "SVID"; NewGRPCServer (serverCreds src)] ++
          match net_InterfaceAddrs w with inl err => [LogWarn err] | inr _ => [] end ++
          [LogListeningURL p; NewProxyServer p (clientCreds src)],
          inr {| config := cfg; source := src;
                 tlsClientConfig := clientCreds src; tlsServerConfig := serverCreds src;
                 listenURL := p |})).
Proof.
  destruct (preResolution w) as [[cfg src]|] eqn:E.
  - right. rewrite (boot_resolves _ _ _ E).
    destruct (ListenOn cfg) as [|u0 rest] eqn:El.
    + left. exists cfg, src. by rewrite getPublishableURL_empty.
    + right.
      destruct (getPublishableURL_nonempty (net_InterfaceAddrs w)
                  (listenonurl_GetPublicURL w) (u0 :: rest)) as [p Hp]; [done|].
      exists cfg, src, p. rewrite Hp. simpl. by rewrite El.
  - left. split; [done|]. by apply boot_fatal.
Qed.

Lemma boot_quiet w :
  attempts (boot w).1 = [] ∧ cancelCalls (boot w).1 = 0 ∧ effectiveCancels (boot w).1 = 0.
Proof.
  destruct (boot_cases w) as [(_ & err & [-> | ->]) | [(cfg & src & _ & _ & ->)
    | (cfg & src & p & _ & _ & ->)]];
    unfold debugLog; destruct (debug_Self w); try done;
    simpl; by destruct (net_InterfaceAddrs w).
Qed.

Lemma boot_booted w tr b :
  boot w = (tr, inr b) →
  preResolution w = Some (config b, source b) ∧ ListenOn (config b) ≠ [] ∧
  tlsClientConfig b = clientCreds (source b) ∧
  tlsServerConfig b = serverCreds (source b) ∧
  tr = debugLog w ++
       [LogInfo "Config"; LogInfo "SVID"; NewGRPCServer (serverCreds (source b))] ++
       match net_InterfaceAddrs w with inl err => [LogWarn err] | inr _ => [] end ++
       [LogListeningURL (listenURL b); NewProxyServer (listenURL b) (clientCreds (source b))].
Proof.
  intros H.
  destruct (boot_cases w) as [(_ & err & [E | E]) | [(cfg & src & _ & _ & E)
    | (cfg & src & p & Hpre & Hne & E)]]; rewrite E in H; try done.
  by injection H as <- <-.
Qed.

(** The start-up sequence panics only in the resolver, on an empty
    list. *)
Lemma boot_panics w tr msg :
  boot w = (tr, inl (Panic msg)) →
  ∃ cfg src, preResolution w = Some (cfg, src) ∧ ListenOn cfg = [] ∧
             tr = debugLog w ++
                  [LogInfo "Config"; LogInfo "SVID"; NewGRPCServer (serverCreds src)].
Proof.
  intros H.
  destruct (boot_cases w) as [(_ & err & [E | E]) | [(cfg & src & Hpre & Hnil & E)
    | (cfg & src & p & Hpre & Hne & E)]]; rewrite E in H; try done.
  injection H as <- _. by exists cfg, src.
Qed.

Lemma main_booted w sched tr b :
  boot w = (tr, inr b) →
  main w sched = run w (ListenOn (config b)) sched (atLoopStart tr).
Proof. intros H. unfold main. by rewrite H. Qed.

(** A fatal exit during start-up: nothing deferred runs. *)
Lemma main_stopped w sched tr code :
  boot w = (tr, inl (Exit code)) →
  main w sched =
    {| pc := AtBoot; goroutines := []; ctx := Running; trace := tr;
       halted := Some (Exit code) |}.
Proof. intros H. unfold main. by rewrite H. Qed.

(** A panic during start-up: the deferred [cancel()] runs. *)
Lemma main_panicked w sched tr msg :
  boot w = (tr, inl (Panic msg)) →
  main w sched =
    {| pc := AtBoot; goroutines := []; ctx := ShuttingDown;
       trace := tr ++ [CancelCall true]; halted := Some (Panic msg) |}.
Proof. intros H. unfold main. by rewrite H. Qed.

(** Before the listener loop the process has stopped. *)
Lemma main_not_booted w sched tr h :
  boot w = (tr, inl h) →
  pc (main w sched) = AtBoot ∧ goroutines (main w sched) = [] ∧
  halted (main w sched) = Some h ∧
  attempts (trace (main w sched)) = [] ∧
  ∀ sched', main w sched' = main w sched.
Proof.
  intros H. pose proof (boot_quiet w) as (Hq & _). rewrite H in Hq. simpl in Hq.
  destruct h as [code|msg].
  - rewrite (main_stopped _ _ _ _ H). split_and!; try done.
    intros sched'. by rewrite (main_stopped _ _ _ _ H).
  - rewrite (main_panicked _ _ _ _ H). simpl. split_and!; try done.
    + rewrite attempts_app, Hq. done.
    + intros sched'. by rewrite (main_panicked _ _ _ _ H).
Qed.

Lemma main_Inv w sched tr b :
  boot w = (tr, inr b) →
  Inv w (ListenOn (config b)) (mainSteps sched) (main w sched).
Proof.
  intros H. rewrite (main_booted _ _ _ _ H).
  apply (run_Inv w _ sched 0), atLoopStart_Inv.
  pose proof (boot_quiet w) as [Hq _]. by rewrite H in Hq.
Qed.

Lemma main_CInv w sched : CInv (main w sched).
Proof.
  pose proof (boot_quiet w) as (_ & Hc & He).
  unfold main. destruct (boot w) as [tr [[code|msg]|b]]; simpl in *.
  - by unfold CInv.
  - unfold CInv; simpl. rewrite cancelCalls_app, effectiveCancels_app, Hc, He.
    split; [unfold cancelCalls; simpl; lia | done].
  - apply run_CInv. by unfold CInv.
Qed.

End Main.

(** Two processes that satisfy the loop invariant after the same number
    of main steps have made the same listener-start attempts. *)
Lemma noReadyBelow_Ready w listenOn n j u err :
  noReadyBelow w listenOn n → j < n → listenOn !! j = Some u →
  grpcutils_ListenAndServe w j u = Ready err → False.
Proof. intros Hno Hj Hu Hr. specialize (Hno j u Hj Hu). by rewrite Hr in Hno. Qed.


(** ** More counting on traces *)

Lemma errorLogs_app tr1 tr2 : errorLogs (tr1 ++ tr2) = errorLogs tr1 + errorLogs tr2.
Proof. unfold errorLogs. by rewrite List.filter_app, length_app. Qed.

Lemma completedLogs_app tr1 tr2 :
  completedLogs (tr1 ++ tr2) = completedLogs tr1 + completedLogs tr2.
Proof. unfold completedLogs. by rewrite List.filter_app, length_app. Qed.

Lemma firedCount_app gs1 gs2 : firedCount (gs1 ++ gs2) = firedCount gs1 + firedCount gs2.
Proof. unfold firedCount. by rewrite List.filter_app, length_app. Qed.

Lemma cancelledCount_app gs1 gs2 :
  cancelledCount (gs1 ++ gs2) = cancelledCount gs1 + cancelledCount gs2.
Proof. unfold cancelledCount. by rewrite List.filter_app, length_app. Qed.

Lemma errorLogs_nil : errorLogs [] = 0.
Proof. reflexivity. Qed.

Lemma errorLogs_cons e tr :
  errorLogs (e :: tr) = (if isLogError e then 1 else 0) + errorLogs tr.
Proof. unfold errorLogs. simpl. by destruct (isLogError e). Qed.

Lemma cancelCalls_nil : cancelCalls [] = 0.
Proof. reflexivity. Qed.

Lemma cancelCalls_cons e tr :
  cancelCalls (e :: tr) = (if isCancel e then 1 else 0) + cancelCalls tr.
Proof. unfold cancelCalls. simpl. by destruct (isCancel e). Qed.

Lemma firedCount_none gs :
  (∀ k g, gs !! k = Some g → fired g = false) → firedCount gs = 0.
Proof.
  induction gs as [|h gs IH]; intros H; [done|].
  unfold firedCount in *. simpl. rewrite (H 0 h eq_refl).
  apply IH. intros k g Hk. by apply (H (S k)).
Qed.




Lemma firedCount_nil : firedCount [] = 0.
Proof. reflexivity. Qed.

Lemma firedCount_cons g gs :
  firedCount (g :: gs) = (if fired g then 1 else 0) + firedCount gs.
Proof. unfold firedCount. simpl. by destruct (fired g). Qed.

Lemma cancelledCount_nil : cancelledCount [] = 0.
Proof. reflexivity. Qed.

Lemma cancelledCount_cons g gs :
  cancelledCount (g :: gs) = (if cancelled g then 1 else 0) + cancelledCount gs.
Proof. unfold cancelledCount. simpl. by destruct (cancelled g). Qed.


(** Replacing one goroutine's state changes a count by that goroutine's
    share. *)
Lemma count_insert (f : Watcher → bool) gs k g g' :
  gs !! k = Some g →
  length (List.filter f (<[k := g']> gs)) + (if f g then 1 else 0) =
  length (List.filter f gs) + (if f g' then 1 else 0).
Proof.
  revert k. induction gs as [|h gs IH]; intros k; [done|].
  destruct k as [|k]; simpl.
  - intros [= ->]. destruct (f g), (f g'); simpl; lia.
  - intros Hk. specialize (IH k Hk). destruct (f h); simpl; lia.
Qed.

Lemma firedCount_insert gs k g g' :
  gs !! k = Some g →
  firedCount (<[k := g']> gs) + (if fired g then 1 else 0) =
  firedCount gs + (if fired g' then 1 else 0).
Proof. apply count_insert. Qed.

Lemma cancelledCount_insert gs k g g' :
  gs !! k = Some g →
  cancelledCount (<[k := g']> gs) + (if cancelled g then 1 else 0) =
  cancelledCount gs + (if cancelled g' then 1 else 0).
Proof. apply count_insert. Qed.

(** ** What each step keeps *)

(** Opens a goal about [step w listenOn p c] into one goal per way the
    step can go. *)
Ltac step_cases p c :=
  unfold step;
  let Hh := fresh "Hh" in
  destruct (halted p) eqn:Hh;
  [ | destruct c as [|?k|];
      [ unfold mainStep;
        let Hpc := fresh "Hpc" in
        destruct (pc p) as [|?i| |] eqn:Hpc;
        [ | let Hu := fresh "Hu" in
            destruct (_ !! _) as [?u|] eqn:Hu;
            [ let Hch := fresh "Hch" in
              destruct (grpcutils_ListenAndServe _ _ _) as [?err|?err|] eqn:Hch | ]
          | let Hc := fresh "Hc" in destruct (ctx p) eqn:Hc
          | ]
      | unfold watcherStep;
        let Hg := fresh "Hg" in
        destruct (goroutines p !! _) as [[[?err|?err|] [] []]|] eqn:Hg
      | unfold signalStep ] ];
  simpl.

Section Steps.
Variable w : World.
Variable listenOn : list URL.

(** A step only adds to the trace. *)
Lemma step_trace_extends p c : ∃ d, trace (step w listenOn p c) = trace p ++ d.
Proof.
  step_cases p c; try (by exists []; rewrite app_nil_r);
    try (by eexists); try (rewrite <- app_assoc; by eexists).
Qed.

Lemma run_trace_extends sched p : ∃ d, trace (run w listenOn sched p) = trace p ++ d.
Proof.
  revert p. induction sched as [|c sched IH]; intros p.
  - exists []. simpl. by rewrite app_nil_r.
  - simpl. destruct (IH (step w listenOn p c)) as [d2 ->].
    destruct (step_trace_extends p c) as [d1 ->].
    exists (d1 ++ d2). by rewrite app_assoc.
Qed.

(** A goroutine moves on: the others are untouched, and what is said of
    its channel still holds. *)
Lemma GInv_insert p k g g' q :
  GInv w listenOn p →
  goroutines p !! k = Some g →
  pc q = pc p → goroutines q = <[k := g']> (goroutines p) →
  errCh g' = errCh g →
  (fired g' = true → ∃ err, errCh g' = Later err) →
  GInv w listenOn q.
Proof.
  intros (Hboot & Hle & Hlen & Hgs) Hg Hpc Hq Hch Hf.
  unfold GInv. rewrite Hpc, Hq. split_and!; [done | done | by rewrite length_insert |].
  intros j h Hj. destruct (decide (j = k)) as [->|Hne].
  - destruct (Hgs k _ Hg) as (u & Hu & Hgch & Hr & _).
    rewrite list_lookup_insert_eq in Hj by (by eapply lookup_lt_Some).
    injection Hj as <-. exists u. rewrite Hch. by split_and!; [| | |rewrite <- Hch].
  - rewrite list_lookup_insert_ne in Hj by done. by apply Hgs.
Qed.

Lemma step_GInv p c : GInv w listenOn p → GInv w listenOn (step w listenOn p c).
Proof.
  intros HG. pose proof HG as (Hboot & Hle & Hlen & Hgs).
  step_cases p c; try done;
    try (by eapply GInv_insert; [exact HG | exact Hg | done | done | done | simpl; eauto]);
    try (by exfalso; destruct (Hgs _ _ Hg) as (? & _ & _ & _ & Hfl);
         destruct (Hfl eq_refl) as [? ?]);
    unfold GInv; simpl; rewrite ?Hpc in *; simpl in *;
    try (by split_and!).
  - (* a listener polled without error: one more goroutine *)
    apply lookup_lt_Some in Hu as Hlt.
    split_and!; [done | lia | rewrite length_app; simpl; lia |].
    intros k g Hk. apply lookup_app_Some in Hk as [Hk | [Hge Hk]]; [by apply Hgs|].
    rewrite Hlen in Hk, Hge.
    destruct (k - i) as [|n] eqn:E; [|done]. injection Hk as <-.
    assert (k = i) as -> by lia. exists u. simpl. rewrite Hch. by split_and!.
  - apply lookup_lt_Some in Hu as Hlt.
    split_and!; [done | lia | rewrite length_app; simpl; lia |].
    intros k g Hk. apply lookup_app_Some in Hk as [Hk | [Hge Hk]]; [by apply Hgs|].
    rewrite Hlen in Hk, Hge.
    destruct (k - i) as [|n] eqn:E; [|done]. injection Hk as <-.
    assert (k = i) as -> by lia. exists u. simpl. rewrite Hch. by split_and!.
  - (* the loop test fails: [i] is the length *)
    apply lookup_ge_None in Hu. split_and!; [done | lia | lia | done].
Qed.

Lemma run_GInv sched p : GInv w listenOn p → GInv w listenOn (run w listenOn sched p).
Proof.
  revert p. induction sched as [|c sched IH]; intros p H; [done|].
  simpl. by apply IH, step_GInv.
Qed.

Lemma step_SInv p c : SInv p → SInv (step w listenOn p c).
Proof.
  unfold SInv. intros H.
  step_cases p c; rewrite ?completedLogs_app, ?Hpc in *; simpl;
    unfold completedLogs in *; simpl; lia.
Qed.

Lemma run_SInv sched p : SInv p → SInv (run w listenOn sched p).
Proof.
  revert p. induction sched as [|c sched IH]; intros p H; [done|].
  simpl. by apply IH, step_SInv.
Qed.

Lemma cancel_cancels c : (cancel c).1 = ShuttingDown.
Proof. by destruct c. Qed.

Lemma step_EInv p c : EInv p → EInv (step w listenOn p c).
Proof.
  intros (Hcount & Hcalls & Hdone).
  step_cases p c; try done; unfold EInv; simpl;
    rewrite ?errorLogs_app, ?cancelCalls_app, ?firedCount_app, ?cancelledCount_app,
      ?errorLogs_cons, ?cancelCalls_cons, ?firedCount_cons, ?cancelledCount_cons,
      ?errorLogs_nil, ?cancelCalls_nil, ?firedCount_nil, ?cancelledCount_nil,
      ?cancel_cancels; simpl.
  all: try match goal with
       | |- context [<[_ := ?g']> _] =>
           pose proof (firedCount_insert _ _ _ g' Hg) as Hfi;
           pose proof (cancelledCount_insert _ _ _ g' Hg) as Hci;
           simpl in Hfi, Hci
       end.
  all: split_and!; [lia | lia | ].
  all: intros j h Hj Hcd.
  all: try (apply lookup_app_Some in Hj as [Hj|[_ Hj]];
            [ by apply (Hdone j h)
            | apply list_lookup_singleton_Some in Hj as [_ <-]; discriminate ]).
  all: try (destruct (decide (j = k)) as [->|Hne];
            [ rewrite list_lookup_insert_eq in Hj
                by (by eapply lookup_lt_Some);
              injection Hj as <-; simpl in *; first [discriminate | done]
            | rewrite list_lookup_insert_ne in Hj by done;
              destruct (Hdone j h Hj Hcd) as [? ?]; split; congruence ]).
  all: destruct (Hdone j h Hj Hcd) as [? ?]; split; congruence.
Qed.

Lemma run_EInv sched p : EInv p → EInv (run w listenOn sched p).
Proof.
  revert p. induction sched as [|c sched IH]; intros p H; [done|].
  simpl. by apply IH, step_EInv.
Qed.


End Steps.

Section MoreSteps.
Variable w : World.
Variable listenOn : list URL.

(** Without a signal, over channels that never yield, nothing stops the
    process and nothing cancels its context. *)
Lemma step_QInv p c :
  (∀ i u, listenOn !! i = Some u → grpcutils_ListenAndServe w i u = Quiet) →
  c ≠ DeliverSignal →
  QInv p → QInv (step w listenOn p c).
Proof.
  intros Hquiet Hc (Hh & Hctx & Hgs).
  step_cases p c; unfold QInv; simpl; try done; try (by split_and!);
    try (by rewrite (Hquiet _ _ Hu) in Hch);
    try (by destruct (Hgs _ _ Hg) as [? ?]).
  split_and!; try done.
  intros k g Hk. apply lookup_app_Some in Hk as [Hk | [_ Hk]]; [by eapply Hgs|].
  by apply list_lookup_singleton_Some in Hk as [_ <-].
Qed.

Lemma run_QInv sched p :
  (∀ i u, listenOn !! i = Some u → grpcutils_ListenAndServe w i u = Quiet) →
  Forall (λ c, c ≠ DeliverSignal) sched →
  QInv p → QInv (run w listenOn sched p).
Proof.
  intros Hquiet Hs. revert p. induction Hs as [|c sched Hc Hs IH]; intros p H; [done|].
  simpl. by apply IH, step_QInv.
Qed.

End MoreSteps.

(** ** The whole program, continued *)

Lemma boot_no_logs w : errorLogs (boot w).1 = 0 ∧ completedLogs (boot w).1 = 0.
Proof.
  destruct (boot_cases w) as [(_ & err & [-> | ->]) | [(cfg & src & _ & _ & ->)
    | (cfg & src & p & _ & _ & ->)]];
    unfold debugLog; destruct (debug_Self w); try done;
    simpl; by destruct (net_InterfaceAddrs w).
Qed.

Lemma main_GInv w sched tr b :
  boot w = (tr, inr b) → GInv w (ListenOn (config b)) (main w sched).
Proof.
  intros H. rewrite (main_booted _ _ _ _ H). apply run_GInv.
  unfold GInv; simpl. split_and!; [done | lia | done | done].
Qed.

Lemma main_EInv w sched : EInv (main w sched).
Proof.
  pose proof (boot_no_logs w) as [He _].
  unfold main. destruct (boot w) as [tr [[code|msg]|b]]; simpl in He.
  - unfold EInv; simpl. rewrite cancelledCount_nil. split_and!; [done | lia | done].
  - unfold EInv; simpl. rewrite errorLogs_app, He, cancelledCount_nil.
    split_and!; [done | lia | done].
  - apply run_EInv. unfold EInv; simpl. rewrite cancelledCount_nil.
    split_and!; [done | lia | done].
Qed.


Lemma boot_exits_with_1 w tr code : boot w = (tr, inl (Exit code)) → code = 1%Z.
Proof.
  intros H.
  destruct (boot_cases w) as [(_ & err & [E | E]) | [(cfg & src & _ & _ & E)
    | (cfg & src & p & _ & _ & E)]]; rewrite E in H; try done;
    by injection H as _ <-.
Qed.



Lemma main_SInv w sched : SInv (main w sched).
Proof.
  pose proof (boot_no_logs w) as [_ Hs].
  unfold main. destruct (boot w) as [tr [[code|msg]|b]]; simpl in Hs.
  - by unfold SInv.
  - unfold SInv; simpl. rewrite completedLogs_app, Hs. done.
  - apply run_SInv. by unfold SInv.
Qed.

(** What the loop invariant says of the attempts, in terms of the
    listeners the main goroutine has gone past: they have all been
    attempted, and at most one more, whose error was ready. *)
Lemma Inv_attempts_pcIndex w listenOn m p :
  Inv w listenOn m p →
  ∃ n, attempts (trace p) = take n (requested listenOn) ∧
       (n = pcIndex listenOn (pc p) ∨
        (n = S (pcIndex listenOn (pc p)) ∧
         ∃ u err, listenOn !! pcIndex listenOn (pc p) = Some u ∧
                  grpcutils_ListenAndServe w (pcIndex listenOn (pc p)) u = Ready err)).
Proof.
  unfold Inv. pose proof (requested_length listenOn) as Hlen.
  destruct (halted p) as [[code|]|]; destruct (pc p) as [|i| |]; try done; simpl.
  - intros (_ & _ & _ & -> & u & err & _ & Hu & Hr & _).
    exists (S i). split; [done|]. right. eauto.
  - intros (_ & _ & -> & _). exists (length listenOn).
    split; [|by left]. symmetry. apply take_ge. lia.
  - intros (_ & _ & -> & _). exists i. split; [done | by left].
  - intros (_ & -> & _). exists (length listenOn).
    split; [|by left]. symmetry. apply take_ge. lia.
Qed.

(** * The claims of the specification *)

(** ** Address resolver *)

(** C2 — Representative selection.  On a non-empty list of listen URLs,
    [defaultURL] returns (without logging or stopping) the address of the
    first entry whose scheme is "tcp" whenever there is one, so the entry
    it returns then has scheme "tcp" and no earlier entry has; when no
    entry has scheme "tcp" it returns the address of the first entry. *)
Theorem defaultURL_selects_first_tcp_else_first (listenOn : list URL) :
  listenOn ≠ [] →
  (∀ i u, listenOn !! i = Some u → Scheme u = "tcp" →
          (∀ j v, j < i → listenOn !! j = Some v → Scheme v ≠ "tcp") →
          defaultURL listenOn = ([], inr (ElemOf i)))
  ∧ ((∃ u, u ∈ listenOn ∧ Scheme u = "tcp") →
     ∃ i u, defaultURL listenOn = ([], inr (ElemOf i)) ∧
            listenOn !! i = Some u ∧ Scheme u = "tcp" ∧
            ∀ j v, j < i → listenOn !! j = Some v → Scheme v ≠ "tcp")
  ∧ ((∀ u, u ∈ listenOn → Scheme u ≠ "tcp") →
     defaultURL listenOn = ([], inr (ElemOf 0)) ∧
     deref listenOn (ElemOf 0) = head listenOn ∧ is_Some (head listenOn)).
Proof.
  intros Hne. split_and!.
  - intros i u Hi Hu Hfirst. unfold defaultURL.
    by rewrite (defaultURL_scan_first listenOn 0 i u Hi Hu Hfirst).
  - intros (u & Hin & Hu). unfold defaultURL.
    destruct (defaultURL_scan listenOn 0) as [j|] eqn:E.
    + destruct (defaultURL_scan_Some _ _ _ E) as (k & v & -> & Hk & Hv & Hbefore).
      by exists (0 + k), v.
    + exfalso. by eapply defaultURL_scan_None.
  - intros Hnone. unfold defaultURL.
    rewrite (proj2 (defaultURL_scan_None listenOn 0) Hnone).
    destruct listenOn as [|v rest]; [done|]. simpl. eauto.
Qed.

Lemma defaultURL_selects_witness :
  [unixURL; tcpURL; tcpURL] ≠ [] ∧
  defaultURL [unixURL; tcpURL; tcpURL] = ([], inr (ElemOf 1)) ∧
  defaultURL [unixURL; schemeOnly "udp"] = ([], inr (ElemOf 0)).
Proof.
  split; [done|]. split.
  - refine (proj1 (defaultURL_selects_first_tcp_else_first
                     [unixURL; tcpURL; tcpURL] _) 1 tcpURL _ _ _); try done.
    intros [|j] v Hj; [by intros [= <-] | lia].
  - refine (proj1 (proj2 (proj2 (defaultURL_selects_first_tcp_else_first
                     [unixURL; schemeOnly "udp"] _)) _)); [done|].
    intros u Hu. repeat (apply elem_of_cons in Hu as [->|Hu]; [done|]).
    by apply elem_of_nil in Hu.
Defined.

(** C10 — The network-routable test is exact equality of the scheme with
    the string "tcp".  An index returned by the scan always holds an
    entry whose scheme is exactly "tcp"; a pointer returned by
    [defaultURL] holds such an entry unless it is the fallback to the
    first entry of a list without any; on a non-empty list none of whose
    schemes is exactly "tcp" the scan selects nothing and the first entry
    is returned, in particular for the schemes "tcp4", "tcp6", "udp" and
    "TCP". *)
Theorem tcp_test_is_exact_string_equality :
  (∀ rest i j, defaultURL_scan rest i = Some j →
               ∃ u, rest !! (j - i) = Some u ∧ Scheme u = "tcp")
  ∧ (∀ listenOn i u, defaultURL listenOn = ([], inr (ElemOf i)) →
                     listenOn !! i = Some u →
                     Scheme u = "tcp" ∨ (i = 0 ∧ ∀ v, v ∈ listenOn → Scheme v ≠ "tcp"))
  ∧ (∀ listenOn, listenOn ≠ [] → (∀ u, u ∈ listenOn → Scheme u ≠ "tcp") →
                 defaultURL_scan listenOn 0 = None ∧
                 defaultURL listenOn = ([], inr (ElemOf 0)))
  ∧ (∀ s rest, s ∈ ["tcp4"; "tcp6"; "udp"; "TCP"] →
               defaultURL_scan (schemeOnly s :: rest) 0 = defaultURL_scan rest 1)
  ∧ defaultURL (schemeOnly <$> ["tcp4"; "tcp6"; "udp"; "TCP"]) = ([], inr (ElemOf 0)).
Proof.
  split_and!.
  - intros rest i j H.
    destruct (defaultURL_scan_Some _ _ _ H) as (k & u & -> & Hk & Hu & _).
    exists u. by replace (i + k - i) with k by lia.
  - intros listenOn i u. unfold defaultURL.
    destruct (defaultURL_scan listenOn 0) as [j|] eqn:E.
    + intros [= <-] Hu. left.
      destruct (defaultURL_scan_Some _ _ _ E) as (k & v & -> & Hk & Hv & _).
      simpl in Hu. congruence.
    + destruct (listenOn !! 0); [|done]. intros [= <-] _. right.
      split; [done|]. by apply (defaultURL_scan_None listenOn 0).
  - intros listenOn Hne Hnone.
    pose proof (proj2 (defaultURL_scan_None listenOn 0) Hnone) as E.
    split; [done|]. unfold defaultURL. rewrite E.
    by destruct listenOn.
  - intros s rest Hs.
    repeat (apply elem_of_cons in Hs as [->|Hs]; [done|]).
    by apply elem_of_nil in Hs.
  - reflexivity.
Qed.

Lemma tcp_test_witness :
  defaultURL [schemeOnly "tcp6"; schemeOnly "TCP"] = ([], inr (ElemOf 0)).
Proof.
  refine (proj2 (proj1 (proj2 (proj2 tcp_test_is_exact_string_equality))
                   [schemeOnly "tcp6"; schemeOnly "TCP"] _ _)); [done|].
  intros u Hu. repeat (apply elem_of_cons in Hu as [->|Hu]; [done|]).
  by apply elem_of_nil in Hu.
Defined.

(** C5 — Interface enumeration failure.  When [net.InterfaceAddrs] returns
    an error, [getPublishableURL] returns the very pointer [defaultURL]
    selected (an element of [config.ListenOn], untouched), the only thing
    it logs is a warning carrying the error, and [main] goes on: the
    start-up sequence completes with that pointer as the listening URL,
    logs nothing fatal and enters the listener loop. *)
Theorem enumeration_failure_is_a_warning (w : World) (cfg : Config) (src : X509Source)
    (err : error) :
  preResolution w = Some (cfg, src) →
  ListenOn cfg ≠ [] →
  net_InterfaceAddrs w = inl err →
  ∃ rep u,
    defaultURL (ListenOn cfg) = ([], inr (ElemOf rep)) ∧
    ListenOn cfg !! rep = Some u ∧
    getPublishableURL (net_InterfaceAddrs w) (listenonurl_GetPublicURL w) (ListenOn cfg)
      = ([LogWarn err], inr (ElemOf rep)) ∧
    boot w =
      (debugLog w ++
       [LogInfo "Config"; LogInfo "SVID"; NewGRPCServer (serverCreds src);
        LogWarn err;
        LogListeningURL (ElemOf rep); NewProxyServer (ElemOf rep) (clientCreds src)],
       inr {| config := cfg; source := src;
              tlsClientConfig := clientCreds src; tlsServerConfig := serverCreds src;
              listenURL := ElemOf rep |}) ∧
    main w [] = atLoopStart (boot w).1 ∧
    attempts (trace (main w [RunMain])) = take 1 (requested (ListenOn cfg)).
Proof.
  intros Hpre Hne Herr.
  destruct (defaultURL_nonempty _ Hne) as (rep & u & Hrep & Hu).
  pose proof (getPublishableURL_warns err (listenonurl_GetPublicURL w) _ _ Hrep) as Hget.
  assert (boot w =
      (debugLog w ++
       [LogInfo "Config"; LogInfo "SVID"; NewGRPCServer (serverCreds src);
        LogWarn err;
        LogListeningURL (ElemOf rep); NewProxyServer (ElemOf rep) (clientCreds src)],
       inr {| config := cfg; source := src;
              tlsClientConfig := clientCreds src; tlsServerConfig := serverCreds src;
              listenURL := ElemOf rep |})) as Hboot.
  { rewrite (boot_resolves _ _ _ Hpre), Herr, Hget. reflexivity. }
  exists rep, u. rewrite Herr. split_and!; try done.
  - by rewrite (main_booted _ _ _ _ Hboot), Hboot.
  - pose proof (main_Inv w [RunMain] _ _ Hboot) as HI.
    unfold Inv in HI. simpl in HI.
    destruct (halted (main w [RunMain])) as [[code|]|];
      destruct (pc (main w [RunMain])) as [|i| |]; try done.
    + destruct HI as (_ & Hlt & _ & Hatt & _).
      assert (i = 0) as -> by (unfold mainSteps in Hlt; simpl in Hlt; lia). done.
    + destruct HI as (_ & Hlt & _). unfold mainSteps in Hlt. simpl in Hlt.
      destruct (ListenOn cfg); [done | simpl in Hlt; lia].
    + by destruct HI as (-> & _ & Hatt & _).
    + destruct HI as (Hlt & _). unfold mainSteps in Hlt. simpl in Hlt.
      destruct (ListenOn cfg); [done | simpl in Hlt; lia].
Qed.

Lemma enumeration_failure_witness :
  ∃ rep u,
    defaultURL [unixURL; tcpURL] = ([], inr (ElemOf rep)) ∧
    [unixURL; tcpURL] !! rep = Some u ∧
    getPublishableURL (net_InterfaceAddrs noInterfacesWorld)
      (listenonurl_GetPublicURL noInterfacesWorld) [unixURL; tcpURL]
      = ([LogWarn "route ip+net: no such network interface"], inr (ElemOf rep)) ∧
    boot noInterfacesWorld =
      ([LogInfo "Config"; LogInfo "SVID"; NewGRPCServer (serverCreds sampleSource);
        LogWarn "route ip+net: no such network interface";
        LogListeningURL (ElemOf rep); NewProxyServer (ElemOf rep) (clientCreds sampleSource)],
       inr {| config := configListening [unixURL; tcpURL]; source := sampleSource;
              tlsClientConfig := clientCreds sampleSource;
              tlsServerConfig := serverCreds sampleSource;
              listenURL := ElemOf rep |}) ∧
    main noInterfacesWorld [] = atLoopStart (boot noInterfacesWorld).1 ∧
    attempts (trace (main noInterfacesWorld [RunMain])) = take 1 (requested [unixURL; tcpURL]).
Proof.
  apply (enumeration_failure_is_a_warning noInterfacesWorld
           (configListening [unixURL; tcpURL]) sampleSource
           "route ip+net: no such network interface"); [reflexivity | done | reflexivity].
Defined.

(** C9 (as the code has it) — [main] passes [config.ListenOn] to the
    resolver as configuration processing produced it, with no check for
    emptiness in between.  The resolver's access to the first element is
    in bounds exactly when the list is non-empty: then [defaultURL]
    returns the address of an existing element (as it does for the
    default configuration); on the empty list it panics with an
    index-out-of-range error, and so does [main]. *)
Theorem resolver_in_bounds_iff_nonempty :
  (∀ listenOn,
     (listenOn ≠ [] →
      ∃ rep u, defaultURL listenOn = ([], inr (ElemOf rep)) ∧ listenOn !! rep = Some u)
     ∧ (listenOn = [] →
        defaultURL listenOn = ([], inl (Panic "index out of range [0] with length 0"))))
  ∧ (∀ w cfg src, preResolution w = Some (cfg, src) →
       (ListenOn cfg = [] ↔
        (boot w).2 = inl (Panic "index out of range [0] with length 0")))
  ∧ defaultURL (ListenOn defaultConfig) = ([], inr (ElemOf 0)).
Proof.
  split_and!.
  - intros listenOn. split; [apply defaultURL_nonempty | by intros ->].
  - intros w cfg src Hpre.
    destruct (boot_cases w) as [(E & _) | [(cfg' & src' & E & Hnil & Hb)
      | (cfg' & src' & p & E & Hne & Hb)]]; rewrite E in Hpre; [done| |];
      injection Hpre as <- <-; rewrite Hb; simpl; [done|].
    split; [done | discriminate].
  - reflexivity.
Qed.

Lemma resolver_in_bounds_witness :
  ∃ rep u, defaultURL [unixURL; tcpURL] = ([], inr (ElemOf rep)) ∧
           [unixURL; tcpURL] !! rep = Some u.
Proof.
  apply (proj1 (proj1 resolver_in_bounds_iff_nonempty [unixURL; tcpURL])). done.
Defined.

(** C9, the claim as stated is false: with an empty [ListenOn] every step
    before the resolver succeeds, nothing rejects the configuration, and
    [main] panics inside [defaultURL] on [&listenOn[0]]. *)
Lemma empty_listen_list_reaches_resolver :
  preResolution noListenersWorld = Some (configListening [], sampleSource) ∧
  ListenOn (configListening []) = [] ∧
  defaultURL (ListenOn (configListening [])) =
    ([], inl (Panic "index out of range [0] with length 0")) ∧
  boot noListenersWorld =
    ([LogInfo "Config"; LogInfo "SVID"; NewGRPCServer (serverCreds sampleSource)],
     inl (Panic "index out of range [0] with length 0")) ∧
  halted (main noListenersWorld [RunMain]) =
    Some (Panic "index out of range [0] with length 0").
Proof. by split_and!. Qed.

(** ** Credentials *)



(** ** Identity *)

(** C8 — Identity acquisition failure.  If [workloadapi.NewX509Source] or
    [source.GetX509SVID] returns an error, then under every schedule the
    process has exited with status 1 (non-zero) before reaching the
    listener loop: no [ListenAndServe] call is in its trace, which holds
    only log lines and, when configuration processing succeeded, is the
    note about [debug.Self] if any, the configuration line and the fatal
    line of the identity error. *)
Theorem identity_failure_is_fatal_before_listeners (w : World) (sched : list Choice)
    (err : error) :
  identityFails w err →
  halted (main w sched) = Some (Exit 1)
  ∧ (1 ≠ 0)%Z
  ∧ pc (main w sched) = AtBoot
  ∧ attempts (trace (main w sched)) = []
  ∧ (∀ i u, ListenAndServeCall i u ∉ trace (main w sched))
  ∧ (envconfig_Usage w = None →
     ∀ cfg, envconfig_Process w = inr cfg →
            logrus_ParseLevel w (LogLevel cfg) = None →
            trace (main w sched) = debugLog w ++ [LogInfo "Config"; LogFatal err]).
Proof.
  intros Hid.
  assert (preResolution w = None) as Hpre.
  { unfold preResolution.
    destruct (envconfig_Usage w); [done|].
    destruct (envconfig_Process w) as [|cfg]; [done|].
    destruct (logrus_ParseLevel w (LogLevel cfg)); [done|].
    destruct Hid as [-> | (src & -> & ->)]; done. }
  destruct (boot_fatal _ Hpre) as (e & Hb).
  assert (∃ tr, boot w = (tr, inl (Exit 1))) as [tr Hb'] by (destruct Hb; eauto).
  destruct (main_not_booted w sched _ _ Hb') as (Hpc & _ & Hh & Hatt & _).
  split_and!; try done.
  - intros i u Hin. apply list_elem_of_lookup in Hin as [k Hk].
    by apply attempts_nil_lookup in Hk.
  - intros Hus cfg Hcfg Hlvl.
    assert (boot w = (debugLog w ++ [LogInfo "Config"; LogFatal err], inl (Exit 1)))
      as Hb''.
    { unfold boot, debugLog.
      destruct (debug_Self w) as [note|]; rewrite Hus, Hcfg; cbn; rewrite Hlvl;
        (destruct Hid as [-> | (src & -> & Hsvid)]; [done|]); cbn; by rewrite Hsvid. }
    by rewrite (main_stopped _ sched _ _ Hb'').
Qed.

Lemma identity_failure_witness :
  halted (main noIdentityWorld [RunMain; RunMain; DeliverSignal]) = Some (Exit 1) ∧
  attempts (trace (main noIdentityWorld [RunMain; RunMain; DeliverSignal])) = [] ∧
  trace (main noIdentityWorld [RunMain; RunMain; DeliverSignal]) =
    [LogInfo "Config"; LogFatal "x509source: context deadline exceeded"].
Proof.
  pose proof (identity_failure_is_fatal_before_listeners noIdentityWorld
                [RunMain; RunMain; DeliverSignal]
                "x509source: context deadline exceeded" (or_introl eq_refl))
    as (H1 & _ & _ & H2 & _ & H3).
  split_and!; [exact H1 | exact H2 |].
  exact (H3 eq_refl _ eq_refl eq_refl).
Defined.

(** ** Listener supervision *)




(** C4 (as the code has it) — A listener's failure is observed
    synchronously exactly when its error is already on the channel at the
    poll that follows its start.  If that is so for listener [i] (and for
    no earlier one), then as soon as the main goroutine has made its
    [i+1]-th step the process has logged the error fatally right after
    the start request and exited with status 1, and no later listener is
    ever attempted.  Conversely the process exits with status 1 from the
    listener loop only in that way: on a listener whose error was ready
    at its poll, the fatal line following its start request. *)
Theorem ready_error_is_fatal_at_once (w : World) (sched : list Choice)
    (tr : list Event) (b : Booted) :
  boot w = (tr, inr b) →
  (∀ i u err,
     ListenOn (config b) !! i = Some u →
     grpcutils_ListenAndServe w i u = Ready err →
     (∀ j v, j < i → ListenOn (config b) !! j = Some v →
             isReady (grpcutils_ListenAndServe w j v) = false) →
     i < mainSteps sched →
     halted (main w sched) = Some (Exit 1)
     ∧ (∃ pre, trace (main w sched) = pre ++ [ListenAndServeCall i u; LogFatal err])
     ∧ attempts (trace (main w sched)) = take (S i) (requested (ListenOn (config b))))
  ∧ (halted (main w sched) = Some (Exit 1) →
     ∃ i u err pre,
       ListenOn (config b) !! i = Some u ∧
       grpcutils_ListenAndServe w i u = Ready err ∧
       i < mainSteps sched ∧
       trace (main w sched) = pre ++ [ListenAndServeCall i u; LogFatal err]).
Proof.
  intros Hboot.
  pose proof (main_Inv w sched _ _ Hboot) as HI. unfold Inv in HI.
  split.
  - intros i u err Hu Hr Hfirst Hsteps.
    apply lookup_lt_Some in Hu as Hlt.
    destruct (halted (main w sched)) as [[code|]|];
      destruct (pc (main w sched)) as [|i'| |]; try done.
    + destruct HI as (-> & Hlt' & Hno & Hatt & u' & err' & pre & Hu' & Hr' & Htr).
      assert (i' = i) as ->.
      { destruct (Nat.lt_trichotomy i' i) as [Hc | [-> | Hc]]; [|done|]; exfalso.
        - specialize (Hfirst i' u' Hc Hu'). by rewrite Hr' in Hfirst.
        - apply (noReadyBelow_Ready w _ i' i u err Hno); [lia | done..]. }
      assert (u' = u) as -> by congruence.
      assert (err' = err) as -> by congruence.
      split_and!; eauto.
    + destruct HI as (-> & _ & _ & Hno & _). exfalso.
      apply (noReadyBelow_Ready w _ _ i u err Hno); [lia | done..].
    + destruct HI as (-> & _ & _ & Hno). exfalso.
      apply (noReadyBelow_Ready w _ _ i u err Hno); [lia | done..].
    + destruct HI as (_ & _ & Hno). exfalso.
      apply (noReadyBelow_Ready w _ _ i u err Hno); [lia | done..].
  - intros Hh. rewrite Hh in HI.
    destruct (pc (main w sched)) as [|i| |]; try done.
    + destruct HI as (_ & Hlt & _ & _ & u & err & pre & Hu & Hr & Htr).
      by exists i, u, err, pre.
    + by destruct HI as (? & _).
Qed.

Lemma ready_error_is_fatal_witness :
  halted (main bindFailsWorld [RunMain; DeliverSignal; RunMain]) = Some (Exit 1)
  ∧ (∃ pre, trace (main bindFailsWorld [RunMain; DeliverSignal; RunMain]) =
            pre ++ [ListenAndServeCall 0 tcpURL;
                    LogFatal "listen tcp 0.0.0.0:5006: bind: address already in use"])
  ∧ attempts (trace (main bindFailsWorld [RunMain; DeliverSignal; RunMain])) =
      take 1 (requested [tcpURL; unixURL; unixURL]).
Proof.
  refine (proj1 (ready_error_is_fatal_at_once bindFailsWorld
                   [RunMain; DeliverSignal; RunMain] _ _ eq_refl) 0 tcpURL
                   "listen tcp 0.0.0.0:5006: bind: address already in use"
                   eq_refl eq_refl _ _).
  - intros j v Hj. lia.
  - unfold mainSteps. simpl. lia.
Defined.

(** C4, the claim as stated is false: the first of two listeners fails
    after the poll that followed its start and before the second listener
    is started.  The failure is not observed by the main goroutine: the
    background goroutine logs it as an error and cancels the context,
    nothing fatal is logged, and the loop goes on to start the second
    listener and to report that start-up completed. *)
Lemma late_error_is_not_synchronous :
  main serveFailsWorld [RunMain; RunWatcher 0; RunWatcher 0; RunMain; RunMain] =
    {| pc := AtDone;
       goroutines := [ {| errCh := Later "grpc: the server has been stopped";
                          fired := true; cancelled := true |};
                       {| errCh := Quiet; fired := false; cancelled := false |} ];
       ctx := ShuttingDown;
       trace := sampleBootTrace 1 ++
                [ListenAndServeCall 0 unixURL;
                 LogError "grpc: the server has been stopped"; CancelCall true;
                 ListenAndServeCall 1 tcpURL;
                 LogInfo "Startup completed"];
       halted := None |} ∧
  halted (main serveFailsWorld [RunMain; RunWatcher 0]) = None ∧
  attempts (trace (main serveFailsWorld [RunMain; RunWatcher 0])) = [(0, unixURL)].
Proof. by split_and!. Qed.







(** Two listeners fail one after the other: [cancel] is called by both
    goroutines and again when [main] returns; only the first call changes
    the signal. *)
Example two_listeners_fail :
  main bothFailWorld
    [RunMain; RunMain; RunWatcher 0; RunWatcher 1; RunWatcher 0; RunWatcher 1;
     RunMain; RunMain] =
    {| pc := Returned;
       goroutines := [ {| errCh := Later "grpc: the server has been stopped";
                          fired := true; cancelled := true |};
                       {| errCh := Later "grpc: the server has been stopped";
                          fired := true; cancelled := true |} ];
       ctx := ShuttingDown;
       trace := sampleBootTrace 0 ++
                [ListenAndServeCall 0 tcpURL; ListenAndServeCall 1 unixURL;
                 LogError "grpc: the server has been stopped";
                 LogError "grpc: the server has been stopped";
                 CancelCall true; CancelCall false;
                 LogInfo "Startup completed"; CancelCall false];
       halted := Some (Exit 0) |}.
Proof. reflexivity. Qed.

(** * Further properties of the code *)

(** ** The representative scan *)

(** The scan over a concatenation is the scan over the first list, and
    when that selects nothing the scan over the second, entered at the
    index where the first list ends. *)
Lemma defaultURL_scan_app (l1 l2 : list URL) (i : nat) :
  defaultURL_scan (l1 ++ l2) i =
    match defaultURL_scan l1 i with
    | Some j => Some j
    | None => defaultURL_scan l2 (i + length l1)
    end.
Proof.
  revert i. induction l1 as [|u l1 IH]; intros i; simpl.
  - f_equal. lia.
  - destruct (String.eqb (Scheme u) "tcp"); [done|].
    rewrite IH. destruct (defaultURL_scan l1 (S i)); [done|]. f_equal. lia.
Qed.

(** Entries appended after a list that holds a "tcp" entry never change
    the representative; appended after a non-empty list that holds none,
    they are scanned in turn, and the first "tcp" entry among them is
    selected at its position in the whole list; when they hold none
    either, the representative stays the first entry. *)
Theorem defaultURL_app (l1 l2 : list URL) :
  l1 ≠ [] →
  ((∃ u, u ∈ l1 ∧ Scheme u = "tcp") → defaultURL (l1 ++ l2) = defaultURL l1)
  ∧ ((∀ u, u ∈ l1 → Scheme u ≠ "tcp") →
     defaultURL (l1 ++ l2) =
       match defaultURL_scan l2 0 with
       | Some j => ([], inr (ElemOf (length l1 + j)))
       | None => ([], inr (ElemOf 0))
       end).
Proof.
  intros Hne. split.
  - intros (u & Hin & Hu). unfold defaultURL. rewrite defaultURL_scan_app.
    destruct (defaultURL_scan l1 0) as [j|] eqn:E; [done|].
    exfalso. by eapply defaultURL_scan_None.
  - intros Hnone. unfold defaultURL. rewrite defaultURL_scan_app.
    rewrite (proj2 (defaultURL_scan_None l1 0) Hnone). simpl.
    destruct (defaultURL_scan l2 (length l1)) as [j|] eqn:E.
    + destruct (defaultURL_scan_Some _ _ _ E) as (k & u & -> & Hk & Hu & Hb).
      by rewrite (defaultURL_scan_first l2 0 k u Hk Hu Hb).
    + rewrite (proj2 (defaultURL_scan_None l2 0)
                 (proj1 (defaultURL_scan_None l2 (length l1)) E)).
      by destruct l1.
Qed.

Lemma defaultURL_app_witness :
  defaultURL ([unixURL; tcpURL] ++ [tcpURL; unixURL]) = defaultURL [unixURL; tcpURL]
  ∧ defaultURL ([unixURL; schemeOnly "udp"] ++ [unixURL; tcpURL]) = ([], inr (ElemOf 3)).
Proof.
  split.
  - refine (proj1 (defaultURL_app [unixURL; tcpURL] [tcpURL; unixURL] _) _); [done|].
    exists tcpURL. split; [|done]. apply elem_of_cons. right. apply elem_of_cons. by left.
  - refine (proj2 (defaultURL_app [unixURL; schemeOnly "udp"] [unixURL; tcpURL] _) _);
      [done|].
    intros u Hu. repeat (apply elem_of_cons in Hu as [->|Hu]; [done|]).
    by apply elem_of_nil in Hu.
Defined.

(** The representative depends on the schemes alone: two lists of listen
    URLs with the same schemes in the same order have the same
    representative index (or both panic), whatever their hosts and
    paths. *)
Theorem defaultURL_reads_schemes_only (l l' : list URL) :
  Scheme <$> l = Scheme <$> l' →
  defaultURL l = defaultURL l'.
Proof.
  intros H.
  assert (∀ i, defaultURL_scan l i = defaultURL_scan l' i) as Hscan.
  { revert l' H. induction l as [|u l IH]; intros [|u' l'] H i; try done.
    simpl in *. injection H as Hu Hl. rewrite Hu.
    destruct (String.eqb (Scheme u') "tcp"); [done|]. by apply IH. }
  unfold defaultURL. rewrite Hscan.
  destruct (defaultURL_scan l' 0); [done|].
  by destruct l, l'.
Qed.

Lemma defaultURL_reads_schemes_only_witness :
  defaultURL [unixURL; tcpURL]
  = defaultURL [ {| Scheme := "unix"; Host := ""; Path := "/var/run/other.sock" |};
                 {| Scheme := "tcp"; Host := "[::]:6001"; Path := "" |} ].
Proof.
  apply (defaultURL_reads_schemes_only [unixURL; tcpURL]
           [ {| Scheme := "unix"; Host := ""; Path := "/var/run/other.sock" |};
             {| Scheme := "tcp"; Host := "[::]:6001"; Path := "" |} ]).
  reflexivity.
Defined.

(** ** The resolver *)

(** On a non-empty list [getPublishableURL] never panics.  When interface
    enumeration succeeds it logs nothing and its result is what
    [GetPublicURL] makes of the representative: the representative's own
    pointer when [GetPublicURL] hands its argument back, the URL it
    allocates otherwise.  In every case a result that points into
    [listenOn] points to the representative, and the result can be
    dereferenced. *)
Theorem getPublishableURL_publishes_representative (listenOn : list URL) :
  listenOn ≠ [] →
  ∃ rep target,
    defaultURL listenOn = ([], inr (ElemOf rep)) ∧
    listenOn !! rep = Some target ∧
    (∀ addrs gpu,
       getPublishableURL (inr addrs) gpu listenOn =
         ([], inr (match gpu addrs target with
                   | Some u' => Alloc u'
                   | None => ElemOf rep
                   end))) ∧
    (∀ ifaces gpu tr r,
       getPublishableURL ifaces gpu listenOn = (tr, r) →
       ∃ p, r = inr p ∧ is_Some (deref listenOn p) ∧ (∀ i, p = ElemOf i → i = rep)).
Proof.
  intros Hne. destruct (defaultURL_nonempty _ Hne) as (rep & target & Hrep & Htarget).
  exists rep, target.
  assert (∀ addrs gpu,
            getPublishableURL (inr addrs) gpu listenOn =
              ([], inr (match gpu addrs target with
                        | Some u' => Alloc u'
                        | None => ElemOf rep
                        end))) as Hok.
  { intros addrs gpu. unfold getPublishableURL. rewrite Hrep. simpl.
    rewrite Htarget. by destruct (gpu addrs target). }
  split_and!; try done.
  intros [err|addrs] gpu tr r.
  - rewrite (getPublishableURL_warns err gpu _ _ Hrep). intros [= <- <-].
    exists (ElemOf rep). split_and!; [done | by simpl; rewrite Htarget | by intros i [= <-]].
  - rewrite Hok. intros [= <- <-]. eexists. split; [done|].
    destruct (gpu addrs target); simpl.
    + split; [done | by intros i].
    + split; [by rewrite Htarget | by intros i [= <-]].
Qed.

Lemma getPublishableURL_publishes_witness :
  ∃ rep target,
    defaultURL [unixURL; tcpURL] = ([], inr (ElemOf rep)) ∧
    [unixURL; tcpURL] !! rep = Some target ∧
    (∀ addrs gpu,
       getPublishableURL (inr addrs) gpu [unixURL; tcpURL] =
         ([], inr (match gpu addrs target with
                   | Some u' => Alloc u'
                   | None => ElemOf rep
                   end))) ∧
    (∀ ifaces gpu tr r,
       getPublishableURL ifaces gpu [unixURL; tcpURL] = (tr, r) →
       ∃ p, r = inr p ∧ is_Some (deref [unixURL; tcpURL] p) ∧ (∀ i, p = ElemOf i → i = rep)).
Proof. apply (getPublishableURL_publishes_representative [unixURL; tcpURL]). done. Defined.

(** ** Configuration *)



(** ** Supervision *)

(** Every listener that was started and whose channel held no error at
    the poll is watched by exactly one goroutine, found at the listener's
    own position and receiving from that listener's channel; there are no
    other goroutines, and one that has fired did so on a value that
    arrived after the poll. *)
Theorem one_goroutine_per_polled_listener (w : World) (sched : list Choice)
    (tr : list Event) (b : Booted) :
  boot w = (tr, inr b) →
  (∀ k g, goroutines (main w sched) !! k = Some g →
          ∃ u, ListenOn (config b) !! k = Some u ∧
               attempts (trace (main w sched)) !! k = Some (k, u) ∧
               errCh g = grpcutils_ListenAndServe w k u ∧
               isReady (errCh g) = false ∧
               (fired g = true → ∃ err, errCh g = Later err))
  ∧ (∀ k u, attempts (trace (main w sched)) !! k = Some (k, u) →
            isReady (grpcutils_ListenAndServe w k u) = false →
            ∃ g, goroutines (main w sched) !! k = Some g ∧
                 errCh g = grpcutils_ListenAndServe w k u).
Proof.
  intros Hboot.
  destruct (main_GInv w sched _ _ Hboot) as (_ & Hle & Hlen & Hgs).
  destruct (Inv_attempts_pcIndex _ _ _ _ (main_Inv w sched _ _ Hboot))
    as (n & Hatt & Hn).
  split.
  - intros k g Hg. destruct (Hgs k g Hg) as (u & Hu & Hch & Hr & Hf).
    exists u. split_and!; try done.
    rewrite Hatt. apply lookup_take_Some. rewrite requested_lookup, Hu.
    split; [done|]. apply lookup_lt_Some in Hg. destruct Hn as [-> | [-> _]]; lia.
  - intros k u Hk Hr. rewrite Hatt in Hk.
    apply lookup_take_Some in Hk as [Hk Hlt]. rewrite requested_lookup in Hk.
    destruct (ListenOn (config b) !! k) as [u'|] eqn:Hu; [|done].
    injection Hk as <-.
    assert (k < length (goroutines (main w sched))) as Hin.
    { rewrite Hlen. destruct Hn as [-> | (-> & v & err & Hv & Hready)]; [done|].
      destruct (decide (k = pcIndex (ListenOn (config b)) (pc (main w sched))))
        as [->|]; [|lia].
      rewrite Hu in Hv. injection Hv as <-. by rewrite Hready in Hr. }
    destruct (lookup_lt_is_Some_2 _ _ Hin) as [g Hg].
    exists g. split; [done|].
    destruct (Hgs k g Hg) as (v & Hv & Hch & _). congruence.
Qed.

Lemma one_goroutine_per_polled_listener_witness :
  ∃ g, goroutines (main serveFailsWorld [RunMain; RunWatcher 0; RunMain]) !! 1 = Some g ∧
       errCh g = grpcutils_ListenAndServe serveFailsWorld 1 tcpURL.
Proof.
  refine (proj2 (one_goroutine_per_polled_listener serveFailsWorld
                   [RunMain; RunWatcher 0; RunMain] _ _ eq_refl) 1 tcpURL _ _);
    reflexivity.
Defined.



(** ** Start-up and shutdown *)

(** "Startup completed" is logged at most once, and only when start-up
    went through and every configured listener was attempted with no
    error ready at its poll.  The process exits with status 0 only after
    that line, with the context cancelled, the main goroutine having
    returned from [<-ctx.Done()]. *)
Theorem exit_zero_only_after_startup_and_cancel (w : World) (sched : list Choice) :
  completedLogs (trace (main w sched)) ≤ 1
  ∧ (completedLogs (trace (main w sched)) = 1 →
     ∃ tr b, boot w = (tr, inr b) ∧
             attempts (trace (main w sched)) = requested (ListenOn (config b)) ∧
             ∀ i u, ListenOn (config b) !! i = Some u →
                    isReady (grpcutils_ListenAndServe w i u) = false)
  ∧ (halted (main w sched) = Some (Exit 0) →
     completedLogs (trace (main w sched)) = 1 ∧
     ctx (main w sched) = ShuttingDown ∧
     0 < cancelCalls (trace (main w sched)) ∧
     pc (main w sched) = Returned).
Proof.
  pose proof (main_SInv w sched) as HS. unfold SInv in HS.
  split_and!.
  - rewrite HS. destruct (pc (main w sched)); lia.
  - intros H1. destruct (boot w) as [tr [h|b]] eqn:Hboot.
    + destruct (main_not_booted w sched _ _ Hboot) as (Hpc & _).
      rewrite Hpc in HS. lia.
    + exists tr, b. split; [done|].
      pose proof (main_Inv w sched _ _ Hboot) as HI. unfold Inv in HI.
      rewrite H1 in HS.
      destruct (halted (main w sched)) as [[code|]|];
        destruct (pc (main w sched)) as [|i| |]; try done.
      * destruct HI as (_ & _ & Hatt & Hno & _). split; [done|].
        intros i u Hu. apply (Hno i u); [by eapply lookup_lt_Some | done].
      * destruct HI as (_ & Hatt & Hno). split; [done|].
        intros i u Hu. apply (Hno i u); [by eapply lookup_lt_Some | done].
  - intros Hh. destruct (boot w) as [tr [h|b]] eqn:Hboot.
    + destruct (main_not_booted w sched _ _ Hboot) as (_ & _ & Hh' & _).
      rewrite Hh in Hh'. injection Hh' as <-.
      by apply boot_exits_with_1 in Hboot.
    + pose proof (main_Inv w sched _ _ Hboot) as HI. unfold Inv in HI.
      pose proof (main_CInv w sched) as HC. unfold CInv in HC.
      rewrite Hh in HI.
      destruct (pc (main w sched)) as [|i| |]; try done.
      * by destruct HI as (? & _).
      * destruct HI as (_ & _ & _ & _ & Hctx). rewrite Hctx in HC.
        by destruct HC.
Qed.

Lemma exit_zero_witness :
  completedLogs (trace (main servingWorld
    [RunMain; RunMain; RunMain; DeliverSignal; RunMain])) = 1 ∧
  ctx (main servingWorld [RunMain; RunMain; RunMain; DeliverSignal; RunMain])
    = ShuttingDown ∧
  0 < cancelCalls (trace (main servingWorld
    [RunMain; RunMain; RunMain; DeliverSignal; RunMain])) ∧
  pc (main servingWorld [RunMain; RunMain; RunMain; DeliverSignal; RunMain]) = Returned.
Proof.
  apply (proj2 (proj2 (exit_zero_only_after_startup_and_cancel servingWorld
           [RunMain; RunMain; RunMain; DeliverSignal; RunMain]))).
  reflexivity.
Defined.



(** A process whose listeners all serve and which receives no signal
    never stops by itself and never cancels its context: under every
    schedule without a signal it is still running, with the context
    live and no call of [cancel] made. *)
Theorem serving_process_never_exits_unprompted (w : World) (sched : list Choice)
    (tr : list Event) (b : Booted) :
  boot w = (tr, inr b) →
  (∀ i u, ListenOn (config b) !! i = Some u → grpcutils_ListenAndServe w i u = Quiet) →
  Forall (λ c, c ≠ DeliverSignal) sched →
  halted (main w sched) = None
  ∧ ctx (main w sched) = Running
  ∧ cancelCalls (trace (main w sched)) = 0
  ∧ errorLogs (trace (main w sched)) = 0.
Proof.
  intros Hboot Hquiet Hsched.
  assert (QInv (main w sched)) as (Hh & Hctx & Hgs).
  { rewrite (main_booted _ _ _ _ Hboot). by apply run_QInv. }
  pose proof (main_CInv w sched) as HC. unfold CInv in HC. rewrite Hctx in HC.
  destruct (main_EInv w sched) as (HE & _).
  split_and!; try done; [by destruct HC|].
  rewrite HE. apply firedCount_none. intros k g Hg. by destruct (Hgs k g Hg).
Qed.

Lemma serving_process_witness :
  halted (main servingWorld [RunMain; RunWatcher 0; RunMain; RunMain; RunMain; RunWatcher 1])
    = None
  ∧ ctx (main servingWorld [RunMain; RunWatcher 0; RunMain; RunMain; RunMain; RunWatcher 1])
    = Running
  ∧ cancelCalls (trace (main servingWorld
      [RunMain; RunWatcher 0; RunMain; RunMain; RunMain; RunWatcher 1])) = 0
  ∧ errorLogs (trace (main servingWorld
      [RunMain; RunWatcher 0; RunMain; RunMain; RunMain; RunWatcher 1])) = 0.
Proof.
  apply (serving_process_never_exits_unprompted servingWorld
           [RunMain; RunWatcher 0; RunMain; RunMain; RunMain; RunWatcher 1] _ _ eq_refl).
  - intros i u _. reflexivity.
  - repeat constructor; discriminate.
Defined.

(** No listener is started before the server is assembled: in every
    trace a [ListenAndServe] call comes after the creation of the gRPC
    server and, after that, the construction of the proxy server that is
    registered on it. *)
Theorem listeners_start_after_server_assembly (w : World) (sched : list Choice)
    (k i : nat) (u : URL) :
  trace (main w sched) !! k = Some (ListenAndServeCall i u) →
  ∃ j1 j2 creds p dial,
    j1 < j2 ∧ j2 < k ∧
    trace (main w sched) !! j1 = Some (NewGRPCServer creds) ∧
    trace (main w sched) !! j2 = Some (NewProxyServer p dial).
Proof.
  intros Hk. pose proof (boot_quiet w) as (Hq & _).
  destruct (boot w) as [tr [h|b]] eqn:Hboot; simpl in Hq.
  - destruct (main_not_booted w sched _ _ Hboot) as (_ & _ & _ & Hnil & _).
    by apply (attempts_nil_lookup _ _ _ _ Hnil) in Hk.
  - destruct (boot_booted _ _ _ Hboot) as (_ & _ & _ & _ & Htr).
    rewrite (main_booted _ _ _ _ Hboot) in *.
    destruct (run_trace_extends w (ListenOn (config b)) sched (atLoopStart tr))
      as [d Hd]. simpl in Hd. rewrite Hd in *.
    assert (length tr ≤ k) as Hge.
    { destruct (decide (k < length tr)) as [Hlt|]; [|lia].
      rewrite lookup_app_l in Hk by done. by apply attempts_nil_lookup in Hk. }
    unfold debugLog in Htr.
    destruct (debug_Self w) as [note|];
      destruct (net_InterfaceAddrs w) as [err|addrs]; subst tr; simpl in Hge.
    + exists 3, 6. do 3 eexists. split_and!; [lia | lia | done | done].
    + exists 3, 5. do 3 eexists. split_and!; [lia | lia | done | done].
    + exists 2, 5. do 3 eexists. split_and!; [lia | lia | done | done].
    + exists 2, 4. do 3 eexists. split_and!; [lia | lia | done | done].
Qed.

Lemma listeners_start_after_server_assembly_witness :
  ∃ j1 j2 creds p dial,
    j1 < j2 ∧ j2 < 6 ∧
    trace (main noInterfacesWorld [RunMain]) !! j1 = Some (NewGRPCServer creds) ∧
    trace (main noInterfacesWorld [RunMain]) !! j2 = Some (NewProxyServer p dial).
Proof.
  apply (listeners_start_after_server_assembly noInterfacesWorld [RunMain] 6 0 unixURL).
  reflexivity.
Defined.
